(** * Hamiltonian path / cycle search: backtracking and brute force

    A shallow embedding of [hamilton_backtracking] and [hamilton_bruteforce]
    (src/src/hamilton_cycle.py, class [HamiltonCycleColoring]) and the
    properties of their results.

    Data model.
    - A vertex is a Python [int]: [Z].
    - [edges] is a Python list of pairs: [list (Z * Z)], kept in input order.
    - [vertices] is a Python [set].  Both functions only take its length and
      iterate over it ([for start in vertices], [list(vertices)]); the same
      unmodified set is iterated in the same order each time, so it is
      represented by the list of its elements in iteration order.  Being a
      set, that list has no duplicates ([NoDup]); theorems that need this
      say so.
    - The returned 5-element list
      [(path_exists, path, cycle_exists, cycle, largest)] (comment at line
      79) is the record [Result]; a field that may hold [None] or a list is
      an [option]: [None] is Python's [None], [Some l] is the list [l],
      possibly empty.  The specification calls the fields path_found, path,
      cycle_found, cycle and largest_cycle_size.
    - Recursive calls whose depth is bounded by the size of the input take
      that bound as [fuel]; [recurse_fuel], [backtrack_fuel] and
      [backtrack_subset_fuel] show that the bound used is never felt. *)

From Stdlib Require Import ZArith Lia.
From stdpp Require Import base option list gmap sets.

Record Result := mkResult {
  path_exists : bool;
  path : option (list Z);
  cycle_exists : bool;
  cycle : option (list Z);
  largest : nat
}.

(** [l[0]] and [l[-1]].  Python raises [IndexError] on an empty list; every
    use below is on a list that is known to be non-empty at that point (see
    the remarks at the uses), so the default is never the value read. *)
Definition first (l : list Z) : Z := default 0%Z (head l).
Definition final (l : list Z) : Z := default 0%Z (last l).

(** ** hamilton_backtracking (lines 76-131) *)

(** The three [nonlocal] accumulators of [recurse]. *)
Record State := mkState {
  Hamiltonian_Path : list Z;
  Hamiltonian_Cycle : list Z;
  Largest_Cycle_Size : nat
}.

Section backtracking.
Variable Num_Vertices : nat.
Variable edges : list (Z * Z).

(** Lines 115-124: is there an edge, in either orientation, between
    [cur_node] and [start_node]? *)
Definition check_for_cycle (cur_node start_node : Z) : bool :=
  existsb (λ e, bool_decide (cur_node = e.1 ∧ start_node = e.2)
                || bool_decide (cur_node = e.2 ∧ start_node = e.1)) edges.

(** Lines 102-106: the vertex the loop body moves to along [edge], if any. *)
Definition neighbor (edge : Z * Z) (visited : list Z) (cur_node : Z) : option Z :=
  if bool_decide (edge.2 = cur_node ∧ edge.1 ∉ visited) then Some edge.1
  else if bool_decide (edge.1 = cur_node ∧ edge.2 ∉ visited) then Some edge.2
  else None.

(** Lines 88-90. *)
Definition note_cycle (st : State) (visited : list Z) (cur_node : Z) : State :=
  if (3 <=? length visited) && check_for_cycle cur_node (first visited)
  then mkState (Hamiltonian_Path st) (Hamiltonian_Cycle st)
               (Largest_Cycle_Size st `max` length visited)
  else st.

(** Lines 94-97, the body of the base case. *)
Definition complete (st : State) (visited : list Z) (cur_node : Z) : State :=
  if check_for_cycle cur_node (first visited)
  then mkState visited (visited ++ [first visited]) (length visited)
  else mkState visited (Hamiltonian_Cycle st) (Largest_Cycle_Size st).

(** Lines 101-113, the [for edge in edges] loop, over the edges still to
    be tried.  [rec] is the recursive call; [visited.append(neighbor)] and
    [visited.pop()] bracket it, and every value kept from [visited] is a
    copy ([visited[:]]), so the list is passed by value.  The [return] at
    line 113 leaves the loop with the state reached. *)
Fixpoint extend (rec : State → list Z → Z → State)
    (visited : list Z) (cur_node : Z) (es : list (Z * Z)) (st : State) : State :=
  match es with
  | [] => st
  | edge :: es' =>
      match neighbor edge visited cur_node with
      | None => extend rec visited cur_node es' st
      | Some nb =>
          let st' := rec st (visited ++ [nb]) nb in
          if bool_decide (Hamiltonian_Cycle st' ≠ []) then st'
          else extend rec visited cur_node es' st'
      end
  end.

(** Lines 85-113.  Each call below the base case makes [visited] one
    longer, so the nesting depth is at most [Num_Vertices - len(visited)];
    [fuel] bounds that depth ([recurse_fuel] shows that any such bound
    gives the same state).  [visited] is never empty: it is [[start]] at
    the outermost call and only grows. *)
Fixpoint recurse (fuel : nat) (st : State) (visited : list Z) (cur_node : Z) : State :=
  let st1 := note_cycle st visited cur_node in
  if Num_Vertices =? length visited then complete st1 visited cur_node
  else
    match fuel with
    | 0 => st1
    | S fuel' => extend (recurse fuel') visited cur_node edges st1
    end.

(** Lines 126-129, over the start vertices still to be tried. *)
Fixpoint starts (vs : list Z) (st : State) : State :=
  match vs with
  | [] => st
  | start :: vs' =>
      let st' := recurse Num_Vertices st [start] start in
      if bool_decide (Hamiltonian_Cycle st' ≠ []) then st'
      else starts vs' st'
  end.
End backtracking.

(** Lines 80-83 and 126-131.  The path and cycle fields are the two lists
    themselves, no [None] is ever produced here. *)
Definition hamilton_backtracking (vertices : list Z) (edges : list (Z * Z)) : Result :=
  let st := starts (length vertices) edges vertices (mkState [] [] 0) in
  mkResult (bool_decide (Hamiltonian_Path st ≠ [])) (Some (Hamiltonian_Path st))
           (bool_decide (Hamiltonian_Cycle st ≠ [])) (Some (Hamiltonian_Cycle st))
           (Largest_Cycle_Size st).

(** ** hamilton_bruteforce (lines 133-229) *)

(** Lines 141-144. *)
Definition build_edge_set (edges : list (Z * Z)) : gset (Z * Z) :=
  foldl (λ s e, ({[ (e.2, e.1) ]} ∪ ({[ (e.1, e.2) ]} ∪ s))) ∅ edges.

(** The three local accumulators of [hamilton_bruteforce]. *)
Record Found := mkFound {
  hamiltonian_path : list Z;
  hamiltonian_cycle : list Z;
  largest_cycle_size : nat
}.

(** Lines 160-168.  The results appended to [result] by one call, in order.
    [remaining] loses one element per level; [fuel] bounds the depth. *)
Fixpoint backtrack (fuel : nat) (current remaining : list Z) : list (list Z) :=
  match remaining with
  | [] => [current]
  | _ :: _ =>
    match fuel with
    | 0 => []
    | S fuel' =>
        i ← seq 0 (length remaining);
        backtrack fuel' (current ++ [remaining !!! i])
                  (take i remaining ++ drop (S i) remaining)
    end
  end.

(** Lines 156-171. *)
Definition generate_permutations (arr : list Z) : list (list Z) :=
  backtrack (length arr) [] arr.

(** Lines 177-184.  [start] grows with each level; [fuel] bounds the depth. *)
Fixpoint backtrack_subset (arr : list Z) (fuel : nat) (start : nat) (current : list Z)
    : list (list Z) :=
  (if 3 <=? length current then [current] else []) ++
  match fuel with
  | 0 => []
  | S fuel' =>
    i ← seq start (length arr - start);
    backtrack_subset arr fuel' (S i) (current ++ [arr !!! i])
  end.

(** Lines 173-187. *)
Definition generate_subsets (arr : list Z) : list (list Z) :=
  backtrack_subset arr (length arr) 0 [].

Section bruteforce.
Variable n : nat.
Variable edge_set : gset (Z * Z).

(** Lines 146-147. *)
Definition has_edge (u v : Z) : bool := bool_decide ((u, v) ∈ edge_set).

(** Lines 149-154; [range(len(perm) - 1)] is empty for an empty [perm]. *)
Definition is_valid_path (perm : list Z) : bool :=
  forallb (λ i, has_edge (perm !!! i) (perm !!! S i)) (seq 0 (length perm - 1)).

(** Lines 196-207, the body of the first loop.  [perm[-1]] and [perm[0]]
    are read only after [len(perm) >= 3] held. *)
Definition check_perm (st : Found) (perm : list Z) : Found :=
  if is_valid_path perm then
    let st1 :=
      if bool_decide (hamiltonian_path st = [])
      then mkFound perm (hamiltonian_cycle st) (largest_cycle_size st)
      else st in
    if (3 <=? length perm) && has_edge (final perm) (first perm) then
      let cycle_size := length perm in
      let st2 := mkFound (hamiltonian_path st1) (hamiltonian_cycle st1)
                         (largest_cycle_size st1 `max` cycle_size) in
      if (cycle_size =? n) && bool_decide (hamiltonian_cycle st2 = [])
      then mkFound (hamiltonian_path st2) (perm ++ [first perm]) (largest_cycle_size st2)
      else st2
    else st1
  else st.

(** Lines 215-217, the body of the innermost loop of the second phase;
    every [perm] there has at least three elements. *)
Definition check_subset_perm (largest_cycle_size : nat) (perm : list Z) : nat :=
  if is_valid_path perm && has_edge (final perm) (first perm)
  then largest_cycle_size `max` length perm
  else largest_cycle_size.

(** Lines 212-217. *)
Definition check_subsets (all_subsets : list (list Z)) (largest_cycle_size : nat) : nat :=
  foldl (λ acc subset, foldl check_subset_perm acc (generate_permutations subset))
        largest_cycle_size all_subsets.
End bruteforce.

(** Lines 137-229. *)
Definition hamilton_bruteforce (vertices : list Z) (edges : list (Z * Z)) : Result :=
  let vertices_list := vertices in
  let n := length vertices_list in
  let edge_set := build_edge_set edges in
  let all_perms := generate_permutations vertices_list in
  let st := foldl (check_perm n edge_set) (mkFound [] [] 0) all_perms in
  let largest_cycle_size' :=
    if largest_cycle_size st <? n
    then check_subsets edge_set (generate_subsets vertices_list) (largest_cycle_size st)
    else largest_cycle_size st in
  let path_exists := 0 <? length (hamiltonian_path st) in
  let cycle_exists := 0 <? length (hamiltonian_cycle st) in
  mkResult path_exists
           (if path_exists then Some (hamiltonian_path st) else None)
           cycle_exists
           (if cycle_exists then Some (hamiltonian_cycle st) else None)
           largest_cycle_size'.

(** ** The order in which full-length sequences are reached

    [recurse] again, with a ghost list next to the state: every execution of
    line 94 ([Hamiltonian_Path = visited[:]]) appends the sequence it
    records.  [recurse_logged_erase] shows that dropping the list gives back
    [recurse], [starts] and the result of [hamilton_backtracking]. *)

Section logged.
Variable Num_Vertices : nat.
Variable edges : list (Z * Z).

Fixpoint extend_logged (rec : State * list (list Z) → list Z → Z → State * list (list Z))
    (visited : list Z) (cur_node : Z) (es : list (Z * Z))
    (sl : State * list (list Z)) : State * list (list Z) :=
  match es with
  | [] => sl
  | edge :: es' =>
      match neighbor edge visited cur_node with
      | None => extend_logged rec visited cur_node es' sl
      | Some nb =>
          let sl' := rec sl (visited ++ [nb]) nb in
          if bool_decide (Hamiltonian_Cycle sl'.1 ≠ []) then sl'
          else extend_logged rec visited cur_node es' sl'
      end
  end.

Fixpoint recurse_logged (fuel : nat) (sl : State * list (list Z))
    (visited : list Z) (cur_node : Z) : State * list (list Z) :=
  let st1 := note_cycle edges sl.1 visited cur_node in
  if Num_Vertices =? length visited
  then (complete edges st1 visited cur_node, sl.2 ++ [visited])
  else
    match fuel with
    | 0 => (st1, sl.2)
    | S fuel' => extend_logged (recurse_logged fuel') visited cur_node edges (st1, sl.2)
    end.

Fixpoint starts_logged (vs : list Z) (sl : State * list (list Z))
    : State * list (list Z) :=
  match vs with
  | [] => sl
  | start :: vs' =>
      let sl' := recurse_logged Num_Vertices sl [start] start in
      if bool_decide (Hamiltonian_Cycle sl'.1 ≠ []) then sl'
      else starts_logged vs' sl'
  end.
End logged.

(** The full-length sequences reached by [hamilton_backtracking], oldest
    first. *)
Definition full_length_log (vertices : list Z) (edges : list (Z * Z)) : list (list Z) :=
  (starts_logged (length vertices) edges vertices (mkState [] [] 0, [])).2.

(** ** Graph notions used in the statements *)

(** [u] and [v] are joined by an edge of the input, in either orientation. *)
Definition adjacent (edges : list (Z * Z)) (u v : Z) : Prop :=
  (u, v) ∈ edges ∨ (v, u) ∈ edges.

(** Every consecutive pair of [p] is joined by an edge. *)
Definition consecutive_adjacent (edges : list (Z * Z)) (p : list Z) : Prop :=
  ∀ i u v, p !! i = Some u → p !! S i = Some v → adjacent edges u v.

(** A valid path: consecutive vertices adjacent, all vertices distinct. *)
Definition valid_path (edges : list (Z * Z)) (p : list Z) : Prop :=
  consecutive_adjacent edges p ∧ NoDup p.

(** A simple cycle among [vertices], given by its visiting order: at least
    three distinct vertices, consecutive ones adjacent, the last adjacent to
    the first. *)
Definition simple_cycle (vertices : list Z) (edges : list (Z * Z)) (c : list Z) : Prop :=
  3 ≤ length c ∧ c ⊆ vertices ∧ valid_path edges c ∧
  adjacent edges (final c) (first c).

(** A Hamiltonian cycle is a simple cycle through every vertex. *)
Definition hamiltonian_cycle_of (vertices : list Z) (edges : list (Z * Z)) (c : list Z) : Prop :=
  simple_cycle vertices edges c ∧ vertices ⊆ c.

(** The input contract of both functions: a non-empty vertex set, edges
    between members of it, no self-loop. *)
Definition valid_input (vertices : list Z) (edges : list (Z * Z)) : Prop :=
  vertices ≠ [] ∧ NoDup vertices ∧
  ∀ u v, (u, v) ∈ edges → u ∈ vertices ∧ v ∈ vertices ∧ u ≠ v.

(** ** The sequences the search is entered with *)

Definition in_progress (Num_Vertices : nat) (edges : list (Z * Z))
    (visited : list Z) (cur_node : Z) : Prop :=
  last visited = Some cur_node ∧ valid_path edges visited ∧
  length visited ≤ Num_Vertices.


(** A reported cycle [c]: its last element repeats its first, and without
    that repeat it is a valid path whose last vertex is adjacent to its
    first. *)
Definition closed_cycle (edges : list (Z * Z)) (c : list Z) : Prop :=
  ∃ p x y, c = p ++ [x] ∧ head c = Some x ∧
    valid_path edges p ∧ head p = Some x ∧ last p = Some y ∧
    adjacent edges y x.

(** The test of lines 196 and 202 on one permutation: a valid path of at
    least three vertices whose last vertex has an edge to its first. *)
Definition closes_cycle (edge_set : gset (Z * Z)) (perm : list Z) : bool :=
  is_valid_path edge_set perm &&
  ((3 <=? length perm) && has_edge edge_set (final perm) (first perm)).

(** ** The two implemented searches, and equality of results *)

Definition algorithms : list (list Z → list (Z * Z) → Result) :=
  [hamilton_backtracking; hamilton_bruteforce].

#[global] Instance Result_eq_dec : EqDecision Result.
Proof. solve_decision. Defined.

(** A Hamiltonian path: an arrangement of all the vertices with
    consecutive ones adjacent. *)
Definition hamiltonian_path_of (vertices : list Z) (edges : list (Z * Z)) (p : list Z) : Prop :=
  p ≡ₚ vertices ∧ consecutive_adjacent edges p.

(** [k] is the vertex count of the largest simple cycle of the graph, and 0
    when the graph has no simple cycle. *)
Definition largest_simple_cycle (vertices : list Z) (edges : list (Z * Z)) (k : nat) : Prop :=
  (∀ c, simple_cycle vertices edges c → length c ≤ k) ∧
  (k = 0 ∨ ∃ c, simple_cycle vertices edges c ∧ length c = k).

(** A Hamiltonian path whose last vertex is adjacent to its first. *)
Definition closing_hamiltonian_path (vertices : list Z) (edges : list (Z * Z)) (p : list Z) : Prop :=
  hamiltonian_path_of vertices edges p ∧ adjacent edges (final p) (first p).

(** The recorded cycle, when there is one, is the recorded path followed by
    its first vertex. *)
Definition cycle_closes_path (st : State) : Prop :=
  Hamiltonian_Cycle st ≠ [] →
  Hamiltonian_Cycle st = Hamiltonian_Path st ++ [first (Hamiltonian_Path st)].

(** [valid_input], as a test that can be run. *)
Definition valid_inputb (vertices : list Z) (edges : list (Z * Z)) : bool :=
  bool_decide (vertices ≠ []) && bool_decide (NoDup vertices) &&
  forallb (λ e, bool_decide (e.1 ∈ vertices) && bool_decide (e.2 ∈ vertices)
                && bool_decide (e.1 ≠ e.2)) edges.
(** * Properties *)

(** ** Adjacency tests *)

Lemma check_for_cycle_adjacent edges (u v : Z) :
  check_for_cycle edges u v = true ↔ adjacent edges u v.
Proof.
  unfold check_for_cycle, adjacent. induction edges as [|[a b] es IH]; simpl.
  - split; [done|]. intros [H|H]; inversion H.
  - rewrite orb_true_iff, orb_true_iff, !bool_decide_eq_true, IH.
    rewrite !elem_of_cons. split.
    + intros [[[-> ->]|[-> ->]]|[H|H]]; auto.
    + intros [[H|H]|[H|H]]; auto; injection H as -> ->; auto.
Qed.

Lemma neighbor_Some edge visited cur_node nb :
  neighbor edge visited cur_node = Some nb →
  (nb ∉ visited) ∧ (edge = (nb, cur_node) ∨ edge = (cur_node, nb)).
Proof.
  unfold neighbor. destruct edge as [a b]; simpl.
  repeat case_bool_decide; intros ?; simplify_eq; naive_solver.
Qed.

Lemma neighbor_adjacent edges edge visited cur_node nb :
  edge ∈ edges → neighbor edge visited cur_node = Some nb →
  (nb ∉ visited) ∧ adjacent edges cur_node nb.
Proof.
  intros Hin [Hnb Hedge]%neighbor_Some. split; [done|].
  unfold adjacent. destruct Hedge; subst; auto.
Qed.

Lemma elem_of_build_edge_set edges (u v : Z) :
  (u, v) ∈ build_edge_set edges ↔ adjacent edges u v.
Proof.
  unfold build_edge_set, adjacent.
  cut (∀ s : gset (Z * Z),
    (u, v) ∈ foldl (λ s e, {[ (e.2, e.1) ]} ∪ ({[ (e.1, e.2) ]} ∪ s)) s edges
    ↔ (u, v) ∈ s ∨ (u, v) ∈ edges ∨ (v, u) ∈ edges).
  { intros ->. set_solver. }
  induction edges as [|[a b] es IH]; intros s; simpl.
  - set_solver.
  - rewrite IH, !elem_of_cons, !elem_of_union, !elem_of_singleton.
    naive_solver.
Qed.

Lemma has_edge_adjacent edges (u v : Z) :
  has_edge (build_edge_set edges) u v = true ↔ adjacent edges u v.
Proof.
  unfold has_edge. by rewrite bool_decide_eq_true, elem_of_build_edge_set.
Qed.

Lemma forallb_fmap {A B} (f : B → bool) (g : A → B) (l : list A) :
  forallb f (g <$> l) = forallb (λ x, f (g x)) l.
Proof.
  induction l as [|x l IH]; [done|].
  rewrite fmap_cons. cbn [forallb]. by rewrite IH.
Qed.

Lemma is_valid_path_cons edge_set (u v : Z) (p : list Z) :
  is_valid_path edge_set (u :: v :: p)
  = has_edge edge_set u v && is_valid_path edge_set (v :: p).
Proof.
  unfold is_valid_path.
  replace (length (u :: v :: p) - 1) with (S (length p)) by (simpl; lia).
  replace (length (v :: p) - 1) with (length p) by (simpl; lia).
  simpl. f_equal. rewrite <- fmap_S_seq. apply forallb_fmap.
Qed.

Lemma consecutive_adjacent_cons edges (u v : Z) (p : list Z) :
  consecutive_adjacent edges (u :: v :: p)
  ↔ adjacent edges u v ∧ consecutive_adjacent edges (v :: p).
Proof.
  unfold consecutive_adjacent. split.
  - intros H. split; [by apply (H 0)|]. intros i a b Ha Hb. by apply (H (S i)).
  - intros [Huv H] [|i] a b Ha Hb; simpl in *; simplify_eq; [done|]. by eapply H.
Qed.

Lemma consecutive_adjacent_short edges (p : list Z) :
  length p ≤ 1 → consecutive_adjacent edges p.
Proof.
  intros Hlen i a b Ha Hb. apply lookup_lt_Some in Hb. lia.
Qed.

Lemma is_valid_path_spec edges (p : list Z) :
  is_valid_path (build_edge_set edges) p = true ↔ consecutive_adjacent edges p.
Proof.
  induction p as [|u [|v p] IH].
  - split; [|done]. intros _. apply consecutive_adjacent_short. simpl. lia.
  - split; [|done]. intros _. apply consecutive_adjacent_short. simpl. lia.
  - rewrite is_valid_path_cons, andb_true_iff, has_edge_adjacent, IH.
    by rewrite consecutive_adjacent_cons.
Qed.

Lemma consecutive_adjacent_snoc edges (p : list Z) (u v : Z) :
  consecutive_adjacent edges p → last p = Some u → adjacent edges u v →
  consecutive_adjacent edges (p ++ [v]).
Proof.
  intros Hp Hlast Huv i a b Ha Hb.
  assert (S i < length (p ++ [v])) as Hlt by by eapply lookup_lt_Some.
  rewrite length_app in Hlt. simpl in Hlt.
  destruct (decide (S i = length p)) as [Heq|Hne].
  - rewrite lookup_app_l in Ha by lia.
    rewrite lookup_app_r in Hb by lia.
    rewrite Heq, Nat.sub_diag in Hb. simpl in Hb. simplify_eq.
    rewrite last_lookup in Hlast.
    replace (pred (length p)) with i in Hlast by lia. by simplify_eq.
  - rewrite lookup_app_l in Ha by lia. rewrite lookup_app_l in Hb by lia.
    by eapply Hp.
Qed.
(** ** The backtracking search: fuel, log erasure, invariants *)

Section backtracking_facts.
Variable Num_Vertices : nat.
Variable edges : list (Z * Z).

Lemma extend_ext rec1 rec2 visited cur_node es st :
  (∀ st' nb, rec1 st' (visited ++ [nb]) nb = rec2 st' (visited ++ [nb]) nb) →
  extend rec1 visited cur_node es st = extend rec2 visited cur_node es st.
Proof.
  intros Hrec. revert st. induction es as [|e es IH]; intros st; simpl; [done|].
  destruct (neighbor e visited cur_node) as [nb|]; [|done].
  rewrite Hrec. case_bool_decide; [done|]. apply IH.
Qed.

(** Any fuel that covers the vertices still missing from [visited] gives
    the same state: the [0 => st1] branch of [recurse] is not reached. *)
Lemma recurse_fuel fuel1 fuel2 st visited cur_node :
  length visited ≤ Num_Vertices →
  Num_Vertices - length visited ≤ fuel1 →
  Num_Vertices - length visited ≤ fuel2 →
  recurse Num_Vertices edges fuel1 st visited cur_node
  = recurse Num_Vertices edges fuel2 st visited cur_node.
Proof.
  revert fuel2 st visited cur_node.
  induction fuel1 as [|fuel1 IH]; intros fuel2 st visited cur_node Hle H1 H2;
    destruct fuel2 as [|fuel2]; simpl;
    destruct (Nat.eqb_spec Num_Vertices (length visited)) as [Heq|Hne];
    try done; try lia.
  apply extend_ext. intros st' nb. apply IH; rewrite length_app; simpl; lia.
Qed.

Lemma extend_logged_erase rec rec_logged visited cur_node es sl :
  (∀ sl' v c, (rec_logged sl' v c).1 = rec sl'.1 v c) →
  (extend_logged rec_logged visited cur_node es sl).1
  = extend rec visited cur_node es sl.1.
Proof.
  intros Hrec. revert sl. induction es as [|e es IH]; intros sl; simpl; [done|].
  destruct (neighbor e visited cur_node) as [nb|]; [|done].
  rewrite Hrec. case_bool_decide; [by rewrite Hrec|]. by rewrite IH, Hrec.
Qed.

Lemma recurse_logged_erase fuel sl visited cur_node :
  (recurse_logged Num_Vertices edges fuel sl visited cur_node).1
  = recurse Num_Vertices edges fuel sl.1 visited cur_node.
Proof.
  revert sl visited cur_node.
  induction fuel as [|fuel IH]; intros sl visited cur_node; simpl;
    destruct (Num_Vertices =? length visited); try done.
  by rewrite (extend_logged_erase (recurse Num_Vertices edges fuel)).
Qed.

Lemma starts_logged_erase vs sl :
  (starts_logged Num_Vertices edges vs sl).1 = starts Num_Vertices edges vs sl.1.
Proof.
  revert sl. induction vs as [|s vs IH]; intros sl; simpl; [done|].
  rewrite recurse_logged_erase. case_bool_decide.
  - by rewrite recurse_logged_erase.
  - by rewrite IH, recurse_logged_erase.
Qed.

(** *** Preservation of an invariant by the search

    [G visited cur_node] describes the sequences the search is entered
    with, [P] the state together with the log. *)
Section preservation.
Variable G : list Z → Z → Prop.
Variable P : State * list (list Z) → Prop.
Hypothesis G_step : ∀ visited cur_node edge nb,
  G visited cur_node → length visited ≠ Num_Vertices →
  edge ∈ edges → neighbor edge visited cur_node = Some nb →
  G (visited ++ [nb]) nb.
Hypothesis P_note : ∀ sl visited cur_node,
  G visited cur_node → length visited ≠ Num_Vertices → P sl →
  P (note_cycle edges sl.1 visited cur_node, sl.2).
Hypothesis P_complete : ∀ sl visited cur_node,
  G visited cur_node → length visited = Num_Vertices → P sl →
  P (complete edges (note_cycle edges sl.1 visited cur_node) visited cur_node,
     sl.2 ++ [visited]).

Lemma extend_logged_preserves rec visited cur_node es sl :
  (∀ sl' nb, G (visited ++ [nb]) nb → P sl' → P (rec sl' (visited ++ [nb]) nb)) →
  es ⊆ edges → G visited cur_node → length visited ≠ Num_Vertices →
  P sl → P (extend_logged rec visited cur_node es sl).
Proof.
  intros Hrec. revert sl.
  induction es as [|e es IH]; intros sl Hsub HG Hlen HP; simpl; [done|].
  assert (e ∈ edges) as He by (apply Hsub; left).
  assert (es ⊆ edges) as Hes by (intros x Hx; apply Hsub; by right).
  destruct (neighbor e visited cur_node) as [nb|] eqn:Hnb; [|by apply IH].
  assert (P (rec sl (visited ++ [nb]) nb)) as HP' by eauto.
  case_bool_decide; [done|]. by apply IH.
Qed.

Lemma recurse_logged_preserves fuel sl visited cur_node :
  G visited cur_node → P sl →
  P (recurse_logged Num_Vertices edges fuel sl visited cur_node).
Proof.
  revert sl visited cur_node.
  induction fuel as [|fuel IH]; intros sl visited cur_node HG HP; simpl;
    destruct (Nat.eqb_spec Num_Vertices (length visited)) as [Heq|Hne];
    try (by apply P_complete); try (by apply P_note).
  apply extend_logged_preserves; auto.
Qed.

Lemma starts_logged_preserves vs sl :
  (∀ s, s ∈ vs → G [s] s) → P sl →
  P (starts_logged Num_Vertices edges vs sl).
Proof.
  revert sl. induction vs as [|s vs IH]; intros sl HG HP; simpl; [done|].
  assert (P (recurse_logged Num_Vertices edges Num_Vertices sl [s] s)) as HP'.
  { apply recurse_logged_preserves; [|done]. apply HG. left. }
  case_bool_decide; [done|]. apply IH; [|done]. intros s' Hs'. apply HG. by right.
Qed.
End preservation.
End backtracking_facts.
(** ** Invariants of the backtracking search *)

Lemma in_progress_start Num_Vertices edges (start : Z) :
  1 ≤ Num_Vertices → in_progress Num_Vertices edges [start] start.
Proof.
  intros Hn. repeat split; [|apply NoDup_singleton|done].
  apply consecutive_adjacent_short. simpl. lia.
Qed.

Lemma in_progress_step Num_Vertices edges visited cur_node edge nb :
  in_progress Num_Vertices edges visited cur_node →
  length visited ≠ Num_Vertices →
  edge ∈ edges → neighbor edge visited cur_node = Some nb →
  in_progress Num_Vertices edges (visited ++ [nb]) nb.
Proof.
  intros (Hlast & [Hadj Hnd] & Hlen) Hne He Hnb.
  destruct (neighbor_adjacent edges _ _ _ _ He Hnb) as [Hfresh Hcn].
  repeat split.
  - by rewrite last_snoc.
  - by eapply consecutive_adjacent_snoc.
  - apply NoDup_app. repeat split; [done| |apply NoDup_singleton].
    intros x Hx ->%list_elem_of_singleton. done.
  - rewrite length_app. simpl. lia.
Qed.

Lemma in_progress_nonempty Num_Vertices edges visited cur_node :
  in_progress Num_Vertices edges visited cur_node → visited ≠ [].
Proof. intros (Hlast & _) ->. done. Qed.

Lemma note_cycle_path edges st visited cur_node :
  Hamiltonian_Path (note_cycle edges st visited cur_node) = Hamiltonian_Path st.
Proof. unfold note_cycle. by destruct (_ && _). Qed.

Lemma note_cycle_cycle edges st visited cur_node :
  Hamiltonian_Cycle (note_cycle edges st visited cur_node) = Hamiltonian_Cycle st.
Proof. unfold note_cycle. by destruct (_ && _). Qed.

Lemma complete_path edges st visited cur_node :
  Hamiltonian_Path (complete edges st visited cur_node) = visited.
Proof. unfold complete. by destruct (check_for_cycle _ _ _). Qed.

(** The state reached from the initial one, with its log. *)
Lemma search_invariant (P : State * list (list Z) → Prop) vertices edges :
  P (mkState [] [] 0, []) →
  (∀ sl visited cur_node,
     in_progress (length vertices) edges visited cur_node →
     length visited ≠ length vertices → P sl →
     P (note_cycle edges sl.1 visited cur_node, sl.2)) →
  (∀ sl visited cur_node,
     in_progress (length vertices) edges visited cur_node →
     length visited = length vertices → P sl →
     P (complete edges (note_cycle edges sl.1 visited cur_node) visited cur_node,
        sl.2 ++ [visited])) →
  P (starts_logged (length vertices) edges vertices (mkState [] [] 0, [])).
Proof.
  intros Hinit Hnote Hcomplete.
  apply (starts_logged_preserves _ _ (in_progress (length vertices) edges));
    try done.
  - intros. by eapply in_progress_step.
  - intros s Hs. apply in_progress_start. destruct vertices; [inversion Hs|simpl; lia].
Qed.

Lemma hamilton_backtracking_state vertices edges :
  let st := (starts_logged (length vertices) edges vertices (mkState [] [] 0, [])).1 in
  hamilton_backtracking vertices edges
  = mkResult (bool_decide (Hamiltonian_Path st ≠ [])) (Some (Hamiltonian_Path st))
             (bool_decide (Hamiltonian_Cycle st ≠ [])) (Some (Hamiltonian_Cycle st))
             (Largest_Cycle_Size st).
Proof. simpl. by rewrite starts_logged_erase. Qed.

(** *** A cycle is only recorded together with a path *)
Lemma backtracking_cycle_path vertices edges :
  let st := (starts_logged (length vertices) edges vertices (mkState [] [] 0, [])).1 in
  Hamiltonian_Cycle st ≠ [] → Hamiltonian_Path st ≠ [].
Proof.
  apply (search_invariant
    (λ sl, Hamiltonian_Cycle sl.1 ≠ [] → Hamiltonian_Path sl.1 ≠ [])); simpl.
  - done.
  - intros sl visited cur_node _ _ HP. by rewrite note_cycle_path, note_cycle_cycle.
  - intros sl visited cur_node HG _ HP _. rewrite complete_path.
    by eapply in_progress_nonempty.
Qed.

(** *** Bounds on [Largest_Cycle_Size] *)
Lemma backtracking_largest vertices edges :
  vertices ≠ [] →
  let st := (starts_logged (length vertices) edges vertices (mkState [] [] 0, [])).1 in
  Largest_Cycle_Size st ≤ length vertices ∧
  (Largest_Cycle_Size st = length vertices ↔ Hamiltonian_Cycle st ≠ []).
Proof.
  intros Hne.
  apply (search_invariant
    (λ sl, Largest_Cycle_Size sl.1 ≤ length vertices ∧
           (Largest_Cycle_Size sl.1 = length vertices ↔ Hamiltonian_Cycle sl.1 ≠ [])));
    simpl.
  - destruct vertices; [done|]. simpl. split; [lia|]. split; [lia|done].
  - intros sl visited cur_node (_ & _ & Hlen) Hneq [HL HLC].
    rewrite note_cycle_cycle. unfold note_cycle.
    destruct (_ && _); simpl; [|done]. split; [lia|]. rewrite <- HLC. lia.
  - intros sl visited cur_node HG Heq [HL HLC].
    unfold complete, note_cycle.
    destruct (check_for_cycle edges cur_node (first visited)) eqn:Hc.
    + simpl. split; [lia|]. split; [|done]. intros _.
      apply in_progress_nonempty in HG. by destruct visited.
    + rewrite andb_false_r. done.
Qed.
Lemma first_head (l : list Z) : l ≠ [] → head l = Some (first l).
Proof. by destruct l. Qed.

Lemma final_last (l : list Z) : l ≠ [] → last l = Some (final l).
Proof.
  intros Hl. unfold final. destruct (last l) eqn:E; [done|].
  by apply last_None in E.
Qed.

Lemma closed_cycle_intro edges (p : list Z) (y : Z) :
  valid_path edges p → last p = Some y → adjacent edges y (first p) →
  closed_cycle edges (p ++ [first p]).
Proof.
  intros Hp Hlast Hadj. assert (p ≠ []) as Hne by (by intros ->).
  exists p, (first p), y. repeat split; try done; try apply Hp.
  - destruct p; [done|]. done.
  - by apply first_head.
Qed.

(** *** What the two recorded sequences are *)
Lemma backtracking_valid vertices edges :
  let st := (starts_logged (length vertices) edges vertices (mkState [] [] 0, [])).1 in
  valid_path edges (Hamiltonian_Path st) ∧
  (Hamiltonian_Cycle st ≠ [] → closed_cycle edges (Hamiltonian_Cycle st)).
Proof.
  apply (search_invariant
    (λ sl, valid_path edges (Hamiltonian_Path sl.1) ∧
           (Hamiltonian_Cycle sl.1 ≠ [] → closed_cycle edges (Hamiltonian_Cycle sl.1))));
    simpl.
  - split; [|done]. split; [|apply NoDup_nil_2].
    apply consecutive_adjacent_short. simpl. lia.
  - intros sl visited cur_node _ _ HP. by rewrite note_cycle_path, note_cycle_cycle.
  - intros sl visited cur_node (Hlast & Hvalid & _) _ [_ HC].
    rewrite complete_path. split; [done|].
    unfold complete.
    destruct (check_for_cycle edges cur_node (first visited)) eqn:Hc; simpl.
    + intros _. apply closed_cycle_intro with cur_node; try done.
      by apply check_for_cycle_adjacent.
    + by rewrite note_cycle_cycle.
Qed.

(** *** The recorded path is the latest full-length sequence *)
Lemma backtracking_path_latest vertices edges :
  let sl := starts_logged (length vertices) edges vertices (mkState [] [] 0, []) in
  Hamiltonian_Path sl.1 = default [] (last sl.2).
Proof.
  apply (search_invariant (λ sl, Hamiltonian_Path sl.1 = default [] (last sl.2)));
    simpl.
  - done.
  - intros sl visited cur_node _ _ HP. by rewrite note_cycle_path.
  - intros sl visited cur_node _ _ _. by rewrite complete_path, last_snoc.
Qed.

Lemma backtracking_log_full vertices edges :
  let sl := starts_logged (length vertices) edges vertices (mkState [] [] 0, []) in
  ∀ p, p ∈ sl.2 → length p = length vertices ∧ valid_path edges p.
Proof.
  apply (search_invariant
    (λ sl, ∀ p, p ∈ sl.2 → length p = length vertices ∧ valid_path edges p));
    simpl.
  - intros p Hp. inversion Hp.
  - done.
  - intros sl visited cur_node (_ & Hvalid & _) Hlen HP p
      [Hp| ->%list_elem_of_singleton]%elem_of_app; auto.
Qed.
(** ** What the backtracking search explores

    [T] is a target on the state that, once reached, stays: the sequences
    below show that the search, unless it stops on a Hamiltonian cycle,
    enters [recurse] with every valid path that starts at a vertex of the
    input. *)

Lemma neighbor_exists edges (visited : list Z) (cur_node x : Z) :
  adjacent edges cur_node x → x ∉ visited → cur_node ∈ visited →
  ∃ e, e ∈ edges ∧ neighbor e visited cur_node = Some x.
Proof.
  intros [He|He] Hx Hc; eexists; (split; [exact He|]); unfold neighbor; simpl.
  - rewrite bool_decide_false by (intros [-> ?]; done).
    by rewrite bool_decide_true.
  - by rewrite bool_decide_true.
Qed.

Section reach.
Variable Num_Vertices : nat.
Variable edges : list (Z * Z).
Variable T : State → Prop.
Hypothesis T_stop : ∀ st, Hamiltonian_Cycle st ≠ [] → T st.
Hypothesis T_note : ∀ st visited cur_node,
  T st → T (note_cycle edges st visited cur_node).
Hypothesis T_complete : ∀ st visited cur_node,
  visited ≠ [] → T st → T (complete edges st visited cur_node).

Lemma extend_stable rec visited cur_node es st :
  (∀ st' nb, T st' → T (rec st' (visited ++ [nb]) nb)) →
  T st → T (extend rec visited cur_node es st).
Proof.
  intros Hrec. revert st. induction es as [|e es IH]; intros st HT; simpl; [done|].
  destruct (neighbor e visited cur_node) as [nb|]; [|by apply IH].
  case_bool_decide; [by apply Hrec|]. by apply IH, Hrec.
Qed.

Lemma recurse_stable fuel st visited cur_node :
  visited ≠ [] → T st → T (recurse Num_Vertices edges fuel st visited cur_node).
Proof.
  revert st visited cur_node.
  induction fuel as [|fuel IH]; intros st visited cur_node Hne HT; simpl;
    destruct (Num_Vertices =? length visited); auto.
  apply extend_stable; [|by auto]. intros st' nb. apply IH. by destruct visited.
Qed.

(** Once lines 88-90 have established the target, the rest of the call
    keeps it. *)
Lemma recurse_from_note fuel st visited cur_node :
  visited ≠ [] → T (note_cycle edges st visited cur_node) →
  T (recurse Num_Vertices edges fuel st visited cur_node).
Proof.
  intros Hne HT. destruct fuel as [|fuel]; simpl;
    destruct (Num_Vertices =? length visited); auto.
  apply extend_stable; [|done]. intros st' nb. apply recurse_stable.
  by destruct visited.
Qed.

Lemma extend_reaches rec visited cur_node es st nb :
  (∀ st' nb', T st' → T (rec st' (visited ++ [nb']) nb')) →
  (∀ st', T (rec st' (visited ++ [nb]) nb)) →
  (∃ e, e ∈ es ∧ neighbor e visited cur_node = Some nb) →
  T (extend rec visited cur_node es st).
Proof.
  intros Hrec Hnb. revert st.
  induction es as [|e es IH]; intros st (e0 & Hin & He0); simpl.
  { inversion Hin. }
  destruct (decide (e0 = e)) as [->|Hne].
  - rewrite He0. case_bool_decide; [done|]. by apply extend_stable.
  - assert (∃ e1, e1 ∈ es ∧ neighbor e1 visited cur_node = Some nb) as Hrest.
    { exists e0. split; [|done]. by apply elem_of_cons in Hin as [?|?]. }
    destruct (neighbor e visited cur_node) as [nb'|]; [|by apply IH].
    case_bool_decide; [by apply T_stop|]. by apply IH.
Qed.

Lemma recurse_reaches (q : list Z) :
  (∀ fuel st, T (recurse Num_Vertices edges fuel st q (final q))) →
  NoDup q → consecutive_adjacent edges q → length q ≤ Num_Vertices →
  ∀ ext fuel st visited cur_node,
    q = visited ++ ext → last visited = Some cur_node →
    Num_Vertices - length visited ≤ fuel →
    T (recurse Num_Vertices edges fuel st visited cur_node).
Proof.
  intros Hq Hnd Hadj Hlen ext.
  induction ext as [|x ext IH]; intros fuel st visited cur_node Heq Hlast Hfuel.
  - rewrite app_nil_r in Heq. subst q.
    replace cur_node with (final visited); [done|]. unfold final. by rewrite Hlast.
  - assert (length q = length visited + S (length ext)) as Hlq
      by (by rewrite Heq, length_app).
    destruct fuel as [|fuel]; [lia|]. simpl.
    destruct (Nat.eqb_spec Num_Vertices (length visited)) as [?|_]; [lia|].
    assert (visited ≠ []) as Hne by (by intros ->).
    apply extend_reaches with x.
    + intros st' nb'. apply recurse_stable. by destruct visited.
    + intros st'. apply IH.
      * by rewrite <- app_assoc.
      * by rewrite last_snoc.
      * rewrite length_app. simpl. lia.
    + apply neighbor_exists.
      * apply (Hadj (pred (length visited))).
        -- rewrite Heq, lookup_app_l by (destruct visited; [done|simpl; lia]).
           by rewrite <- last_lookup.
        -- replace (S (pred (length visited))) with (length visited)
             by (destruct visited; [done|simpl; lia]).
           by rewrite Heq, list_lookup_middle.
      * rewrite Heq in Hnd. apply NoDup_app in Hnd as (_ & Hdisj & _).
        intros Hx. apply (Hdisj x Hx). left.
      * apply list_elem_of_lookup. exists (pred (length visited)).
        by rewrite <- last_lookup.
Qed.

Lemma starts_stable vs st :
  T st → T (starts Num_Vertices edges vs st).
Proof.
  revert st. induction vs as [|s vs IH]; intros st HT; simpl; [done|].
  case_bool_decide; [by apply recurse_stable|]. by apply IH, recurse_stable.
Qed.

Lemma starts_reaches vs st (s : Z) :
  s ∈ vs → (∀ st', T (recurse Num_Vertices edges Num_Vertices st' [s] s)) →
  T (starts Num_Vertices edges vs st).
Proof.
  intros Hin Hs. revert st.
  induction vs as [|s' vs IH]; intros st; simpl; [inversion Hin|].
  destruct (decide (s = s')) as [<-|Hne].
  - case_bool_decide; [done|]. by apply starts_stable.
  - case_bool_decide; [by apply T_stop|]. apply IH.
    by apply elem_of_cons in Hin as [?|?].
Qed.

(** The search from the vertices [vs] reaches the target that entering
    [recurse] with the valid path [q] establishes, when [q] starts in
    [vs] and has at most [Num_Vertices] vertices. *)
Lemma search_reaches vs st (q : list Z) :
  (∀ fuel st', T (recurse Num_Vertices edges fuel st' q (final q))) →
  q ≠ [] → first q ∈ vs → valid_path edges q → length q ≤ Num_Vertices →
  T (starts Num_Vertices edges vs st).
Proof.
  intros Hq Hne Hfirst [Hadj Hnd] Hlen.
  destruct q as [|s ext]; [done|]. simpl in Hfirst.
  apply starts_reaches with s; [done|]. intros st'.
  apply (recurse_reaches (s :: ext) Hq Hnd Hadj Hlen ext); [done|done|simpl; lia].
Qed.
End reach.
(** ** What the backtracking search computes *)

Lemma recurse_full Num_Vertices edges fuel st visited cur_node :
  length visited = Num_Vertices →
  recurse Num_Vertices edges fuel st visited cur_node
  = complete edges (note_cycle edges st visited cur_node) visited cur_node.
Proof. intros <-. destruct fuel; simpl; by rewrite Nat.eqb_refl. Qed.

Lemma NoDup_subseteq_length (l k : list Z) :
  NoDup l → l ⊆ k → length l ≤ length k.
Proof. intros Hnd Hsub. by apply submseteq_length, NoDup_submseteq. Qed.

Lemma no_simple_cycle_below_three vertices edges (c : list Z) :
  length vertices < 3 → ¬ simple_cycle vertices edges c.
Proof.
  intros Hlen (Hc & Hsub & [_ Hnd] & _).
  pose proof (NoDup_subseteq_length _ _ Hnd Hsub). lia.
Qed.

Lemma hamilton_backtracking_largest vertices edges :
  largest (hamilton_backtracking vertices edges)
  = Largest_Cycle_Size (starts (length vertices) edges vertices (mkState [] [] 0)).
Proof. done. Qed.

(** Every simple cycle of the graph is seen. *)
Lemma backtracking_finds_cycle vertices edges (c : list Z) :
  simple_cycle vertices edges c →
  length c ≤ largest (hamilton_backtracking vertices edges).
Proof.
  intros (Hlen & Hsub & [Hadj Hnd] & Hclose).
  assert (c ≠ []) as Hc by (intros ->; simpl in Hlen; lia).
  assert (vertices ≠ []) as Hne.
  { intros ->. destruct c as [|x c]; [done|].
    assert (x ∈ []) as ?%elem_of_nil by (apply Hsub; left). done. }
  pose proof (NoDup_subseteq_length _ _ Hnd Hsub) as Hle.
  set (T := λ st, Hamiltonian_Cycle st ≠ [] ∨ length c ≤ Largest_Cycle_Size st).
  assert (∀ st visited cur_node,
            T st → T (note_cycle edges st visited cur_node)) as HTnote.
  { intros st v cur [?|?]; unfold T, note_cycle; destruct (_ && _); simpl; auto.
    right. lia. }
  assert (∀ st visited cur_node,
            visited ≠ [] → T st → T (complete edges st visited cur_node)) as HTcomplete.
  { intros st v cur Hv [?|?]; unfold T, complete;
      destruct (check_for_cycle _ _ _); simpl; auto; left; by destruct v. }
  assert (T (starts (length vertices) edges vertices (mkState [] [] 0))) as HT.
  { apply search_reaches with c; try done.
    - by left.
    - intros fuel st. apply recurse_from_note; try done.
      right. unfold note_cycle.
      rewrite (proj2 (Nat.leb_le 3 (length c)) Hlen).
      rewrite (proj2 (check_for_cycle_adjacent edges _ _) Hclose). simpl. lia.
    - apply Hsub. destruct c; [done|]. left. }
  rewrite hamilton_backtracking_largest. destruct HT as [HC|HL]; [|done].
  pose proof (backtracking_largest vertices edges Hne) as [_ Hiff]. simpl in Hiff.
  rewrite starts_logged_erase in Hiff. simpl in Hiff.
  apply Hiff in HC. lia.
Qed.

(** The sequences the search is entered with, on a valid input: they stay
    among the vertices. *)
Lemma in_progress_within_step vertices edges visited cur_node edge nb :
  valid_input vertices edges →
  in_progress (length vertices) edges visited cur_node ∧ visited ⊆ vertices →
  length visited ≠ length vertices →
  edge ∈ edges → neighbor edge visited cur_node = Some nb →
  in_progress (length vertices) edges (visited ++ [nb]) nb ∧
  visited ++ [nb] ⊆ vertices.
Proof.
  intros (_ & _ & Hedges) [HG Hsub] Hlen He Hnb. split.
  - by eapply in_progress_step.
  - intros x [Hx| ->%list_elem_of_singleton]%elem_of_app; [by apply Hsub|].
    apply neighbor_Some in Hnb as [_ [->| ->]]; by apply Hedges in He as (? & ? & ?).
Qed.

Lemma search_invariant_within (P : State * list (list Z) → Prop) vertices edges :
  valid_input vertices edges →
  P (mkState [] [] 0, []) →
  (∀ sl visited cur_node,
     in_progress (length vertices) edges visited cur_node → visited ⊆ vertices →
     length visited ≠ length vertices → P sl →
     P (note_cycle edges sl.1 visited cur_node, sl.2)) →
  (∀ sl visited cur_node,
     in_progress (length vertices) edges visited cur_node → visited ⊆ vertices →
     length visited = length vertices → P sl →
     P (complete edges (note_cycle edges sl.1 visited cur_node) visited cur_node,
        sl.2 ++ [visited])) →
  P (starts_logged (length vertices) edges vertices (mkState [] [] 0, [])).
Proof.
  intros Hvalid Hinit Hnote Hcomplete.
  apply (starts_logged_preserves _ _
    (λ v c, in_progress (length vertices) edges v c ∧ v ⊆ vertices)); try done.
  - intros. by eapply in_progress_within_step.
  - intros sl v c [? ?]. by apply Hnote.
  - intros sl v c [? ?]. by apply Hcomplete.
  - intros s Hs. split.
    + apply in_progress_start. destruct vertices; [inversion Hs|simpl; lia].
    + by intros x ->%list_elem_of_singleton.
Qed.

Lemma in_progress_simple_cycle vertices edges visited cur_node :
  in_progress (length vertices) edges visited cur_node → visited ⊆ vertices →
  3 ≤ length visited → check_for_cycle edges cur_node (first visited) = true →
  simple_cycle vertices edges visited.
Proof.
  intros (Hlast & Hvalid & _) Hsub Hlen Hcheck. repeat split; try done; try apply Hvalid.
  unfold final. rewrite Hlast. simpl. by apply check_for_cycle_adjacent.
Qed.

(** On a valid input whose vertex count is not 2, a non-zero
    [Largest_Cycle_Size] is the size of a simple cycle of the graph. *)
Lemma backtracking_largest_is_cycle vertices edges :
  valid_input vertices edges → length vertices ≠ 2 →
  largest (hamilton_backtracking vertices edges) = 0 ∨
  ∃ c, simple_cycle vertices edges c ∧
       length c = largest (hamilton_backtracking vertices edges).
Proof.
  intros Hvalid Hn2. rewrite hamilton_backtracking_state. simpl.
  apply (search_invariant_within
    (λ sl, Largest_Cycle_Size sl.1 = 0 ∨
           ∃ c, simple_cycle vertices edges c ∧ length c = Largest_Cycle_Size sl.1));
    simpl; try done.
  - by left.
  - intros sl visited cur_node HG Hsub _ HP. unfold note_cycle.
    destruct (_ && _) eqn:Hcond; simpl; [|done].
    apply andb_true_iff in Hcond as [Hlen%Nat.leb_le Hcheck].
    destruct (Nat.max_spec (Largest_Cycle_Size sl.1) (length visited))
      as [[_ ->]|[_ ->]]; [|done].
    right. exists visited. split; [|done]. by eapply in_progress_simple_cycle.
  - intros sl visited cur_node HG Hsub Hfull HP. unfold complete, note_cycle.
    destruct (check_for_cycle edges cur_node (first visited)) eqn:Hcheck; simpl.
    + right. exists visited. split; [|done].
      destruct (decide (3 ≤ length visited)) as [Hlen|Hlen].
      { by eapply in_progress_simple_cycle. }
      exfalso. destruct HG as (Hlast & _ & _).
      destruct visited as [|x [|y [|z v]]]; simpl in *; try lia; [done|].
      simplify_eq. apply check_for_cycle_adjacent in Hcheck.
      destruct Hvalid as (_ & _ & Hedges).
      destruct Hcheck as [He|He]; apply Hedges in He as (_ & _ & ?); done.
    + by rewrite andb_false_r.
Qed.

(** A returned path is a Hamiltonian path of the graph. *)
Lemma backtracking_path_hamiltonian vertices edges :
  valid_input vertices edges →
  path_exists (hamilton_backtracking vertices edges) = true →
  ∃ p, path (hamilton_backtracking vertices edges) = Some p ∧
       hamiltonian_path_of vertices edges p.
Proof.
  intros Hvalid. rewrite hamilton_backtracking_state. simpl.
  rewrite bool_decide_eq_true. intros Hp. eexists. split; [done|].
  revert Hp.
  apply (search_invariant_within
    (λ sl, Hamiltonian_Path sl.1 ≠ [] →
           hamiltonian_path_of vertices edges (Hamiltonian_Path sl.1)));
    simpl; try done.
  - intros sl visited cur_node _ _ _ HP. by rewrite note_cycle_path.
  - intros sl visited cur_node (_ & [Hadj Hnd] & _) Hsub Hfull _ _.
    rewrite complete_path. split; [|done].
    apply submseteq_length_Permutation; [|lia]. by apply NoDup_submseteq.
Qed.

(** Every Hamiltonian path of the graph makes the search return one. *)
Lemma backtracking_finds_path vertices edges (p : list Z) :
  vertices ≠ [] → NoDup vertices → hamiltonian_path_of vertices edges p →
  path_exists (hamilton_backtracking vertices edges) = true.
Proof.
  intros Hne Hnd [Hperm Hadj].
  assert (p ≠ []) as Hp by (intros ->; by apply Permutation_nil_l in Hperm).
  set (T := λ st, Hamiltonian_Path st ≠ [] ∨ Hamiltonian_Cycle st ≠ []).
  assert (T (starts (length vertices) edges vertices (mkState [] [] 0))) as HT.
  { apply search_reaches with p; try done.
    - by right.
    - intros st v cur HT. unfold T. by rewrite note_cycle_path, note_cycle_cycle.
    - intros st v cur Hv _. left. by rewrite complete_path.
    - intros fuel st. rewrite recurse_full by (by rewrite Hperm).
      left. by rewrite complete_path.
    - rewrite <- Hperm. destruct p; [done|]. left.
    - split; [done|]. by rewrite Hperm.
    - by rewrite Hperm. }
  unfold hamilton_backtracking. simpl. apply bool_decide_eq_true.
  destruct HT as [?|HC]; [done|].
  pose proof (backtracking_cycle_path vertices edges) as Hcp. simpl in Hcp.
  rewrite starts_logged_erase in Hcp. by apply Hcp.
Qed.
(** ** The enumerations of the brute-force search *)

Lemma lookup_total_Some (l : list Z) (i : nat) :
  i < length l → l !! i = Some (l !!! i).
Proof.
  intros Hi. destruct (lookup_lt_is_Some_2 l i Hi) as [x Hx].
  by rewrite (list_lookup_total_correct _ _ _ Hx).
Qed.

Lemma length_without (l : list Z) (i : nat) :
  i < length l → length (take i l ++ drop (S i) l) = length l - 1.
Proof. intros Hi. rewrite length_app, length_take, length_drop. lia. Qed.

Lemma Permutation_without (l : list Z) (i : nat) (x : Z) :
  l !! i = Some x → l ≡ₚ x :: (take i l ++ drop (S i) l).
Proof.
  intros Hx. rewrite <- (take_drop_middle l i x Hx) at 1.
  by rewrite Permutation_middle.
Qed.

(** [backtrack] appends [current] followed by each arrangement of
    [remaining], and nothing else. *)
Lemma elem_of_backtrack fuel current remaining (p : list Z) :
  length remaining ≤ fuel →
  p ∈ backtrack fuel current remaining ↔ ∃ q, p = current ++ q ∧ q ≡ₚ remaining.
Proof.
  revert current remaining p.
  induction fuel as [|fuel IH]; intros current remaining p Hfuel.
  - destruct remaining; [|simpl in Hfuel; lia]. simpl.
    rewrite list_elem_of_singleton. split.
    + intros ->. exists []. by rewrite app_nil_r.
    + intros (q & -> & ->%Permutation_nil_r). by rewrite app_nil_r.
  - destruct remaining as [|r0 rs].
    { simpl. rewrite list_elem_of_singleton. split.
      + intros ->. exists []. by rewrite app_nil_r.
      + intros (q & -> & ->%Permutation_nil_r). by rewrite app_nil_r. }
    cbn [backtrack]. set (remaining := r0 :: rs) in *.
    rewrite list_elem_of_bind. split.
    + intros (i & Hp & Hi%elem_of_seq).
      apply IH in Hp as (q & -> & Hq); [|rewrite length_without; lia].
      exists (remaining !!! i :: q). split; [by rewrite <- app_assoc|].
      rewrite Hq. symmetry. apply Permutation_without, lookup_total_Some. lia.
    + intros (q & -> & Hq).
      destruct q as [|x q]; [by apply Permutation_nil_l in Hq|].
      assert (x ∈ remaining) as [i Hi]%list_elem_of_lookup_1
        by (rewrite <- Hq; left).
      assert (i < length remaining) as Hlt by by eapply lookup_lt_Some.
      exists i. split; [|apply elem_of_seq; lia].
      rewrite (list_lookup_total_correct _ _ _ Hi).
      apply IH; [rewrite length_without; lia|].
      exists q. split; [by rewrite <- app_assoc|].
      apply (Permutation_without _ _ _) in Hi. rewrite Hi in Hq.
      by apply Permutation_cons_inv in Hq.
Qed.

(** The bound on the depth of [backtrack] is not felt once it covers
    [remaining]. *)
Lemma backtrack_fuel fuel1 fuel2 current remaining :
  length remaining ≤ fuel1 → length remaining ≤ fuel2 →
  backtrack fuel1 current remaining = backtrack fuel2 current remaining.
Proof.
  revert fuel2 current remaining.
  induction fuel1 as [|fuel1 IH]; intros fuel2 current remaining H1 H2;
    destruct fuel2 as [|fuel2]; destruct remaining as [|r0 rs];
    try done; try (simpl in *; lia).
  cbn [backtrack]. set (remaining := r0 :: rs) in *.
  assert (∀ k, k ∈ seq 0 (length remaining) → k < length remaining) as His
    by (intros k ?%elem_of_seq; lia).
  revert His. generalize (seq 0 (length remaining)). intros idxs His.
  induction idxs as [|i idxs IHis]; [done|].
  rewrite !bind_cons. f_equal.
  - assert (i < length remaining) as Hi by (apply His; left).
    apply IH; rewrite length_without; lia.
  - apply IHis. intros k Hk. apply His. by right.
Qed.

Lemma elem_of_generate_permutations (arr p : list Z) :
  p ∈ generate_permutations arr ↔ p ≡ₚ arr.
Proof.
  unfold generate_permutations. rewrite elem_of_backtrack by done.
  split; [by intros (q & -> & Hq)|]. intros Hp. by exists p.
Qed.

Lemma generate_permutations_length (arr p : list Z) :
  p ∈ generate_permutations arr → length p = length arr.
Proof. intros Hp%elem_of_generate_permutations. by rewrite Hp. Qed.

(** The enumeration starts with the list as it is. *)
Lemma backtrack_head fuel current remaining :
  length remaining ≤ fuel →
  head (backtrack fuel current remaining) = Some (current ++ remaining).
Proof.
  revert current remaining.
  induction fuel as [|fuel IH]; intros current [|r0 rs] Hfuel.
  - simpl. by rewrite app_nil_r.
  - simpl in Hfuel. lia.
  - simpl. by rewrite app_nil_r.
  - cbn [backtrack length seq]. rewrite bind_cons.
    assert (head (backtrack fuel (current ++ [r0]) rs)
            = Some ((current ++ [r0]) ++ rs)) as Hhead
      by (apply IH; simpl in Hfuel; lia).
    change (take 0 (r0 :: rs) ++ drop 1 (r0 :: rs)) with rs.
    change ((r0 :: rs) !!! 0) with r0.
    destruct (backtrack fuel (current ++ [r0]) rs) as [|p ps]; [done|].
    simpl in *. by rewrite <- app_assoc in Hhead.
Qed.

Lemma generate_permutations_head (arr : list Z) :
  head (generate_permutations arr) = Some arr.
Proof. unfold generate_permutations. by rewrite backtrack_head. Qed.

Lemma sublist_cons_lookup (x : Z) (s l : list Z) :
  x :: s `sublist_of` l → ∃ j, l !! j = Some x ∧ s `sublist_of` drop (S j) l.
Proof.
  induction l as [|y l IH]; intros Hs.
  - by apply sublist_nil_r in Hs.
  - apply sublist_cons_r in Hs as [Hs|(s' & Heq & Hs)].
    + destruct (IH Hs) as (j & Hj & Hsub). by exists (S j).
    + simplify_eq. by exists 0.
Qed.

(** [backtrack_subset] appends [current] followed by a selection, in index
    order, of the elements of [arr] from position [start] on, whenever that
    has at least three elements. *)
Lemma elem_of_backtrack_subset arr fuel start current (r : list Z) :
  length arr - start ≤ fuel →
  r ∈ backtrack_subset arr fuel start current ↔
  3 ≤ length r ∧ ∃ s, r = current ++ s ∧ s `sublist_of` drop start arr.
Proof.
  revert start current r.
  induction fuel as [|fuel IH]; intros start current r Hfuel.
  - cbn [backtrack_subset]. rewrite app_nil_r.
    rewrite drop_ge by lia. split.
    + destruct (Nat.leb_spec 3 (length current)); [|by intros ?%elem_of_nil].
      intros ->%list_elem_of_singleton. split; [done|].
      exists []. by rewrite app_nil_r.
    + intros (Hlen & s & -> & ->%sublist_nil_r). rewrite app_nil_r in *.
      destruct (Nat.leb_spec 3 (length current)); [left|lia].
  - cbn [backtrack_subset]. rewrite elem_of_app, list_elem_of_bind. split.
    + intros [Hr|(i & Hr & Hi%elem_of_seq)].
      * destruct (Nat.leb_spec 3 (length current)); [|by apply elem_of_nil in Hr].
        apply list_elem_of_singleton in Hr as ->. split; [done|].
        exists []. rewrite app_nil_r. split; [done|]. apply sublist_nil_l.
      * apply IH in Hr as (Hlen & s & -> & Hs); [|lia]. split; [done|].
        exists (arr !!! i :: s). split; [by rewrite <- app_assoc|].
        assert (arr !! i = Some (arr !!! i)) as Hx by (apply lookup_total_Some; lia).
        replace start with (i - (i - start)) by lia.
        etrans; [|apply sublist_drop]. rewrite drop_drop.
        replace (i - (i - start) + (i - start)) with i by lia.
        rewrite (drop_S _ _ _ Hx). by apply sublist_skip.
    + intros (Hlen & s & -> & Hs). destruct s as [|x s].
      * left. rewrite app_nil_r in *.
        destruct (Nat.leb_spec 3 (length current)); [left|lia].
      * right. apply sublist_cons_lookup in Hs as (j & Hj & Hs).
        rewrite lookup_drop in Hj. rewrite drop_drop in Hs.
        assert (start + j < length arr) as Hlt by by eapply lookup_lt_Some.
        exists (start + j). split; [|apply elem_of_seq; lia].
        rewrite (list_lookup_total_correct _ _ _ Hj).
        apply IH; [lia|]. split; [done|].
        exists s. split; [by rewrite <- app_assoc|].
        by replace (S (start + j)) with (start + S j) by lia.
Qed.

Lemma elem_of_generate_subsets (arr s : list Z) :
  s ∈ generate_subsets arr ↔ 3 ≤ length s ∧ s `sublist_of` arr.
Proof.
  unfold generate_subsets. rewrite elem_of_backtrack_subset by lia.
  split.
  - by intros (Hlen & s' & -> & Hs).
  - intros [Hlen Hs]. split; [done|]. by exists s.
Qed.

Lemma backtrack_subset_fuel arr fuel1 fuel2 start current :
  length arr - start ≤ fuel1 → length arr - start ≤ fuel2 →
  backtrack_subset arr fuel1 start current
  = backtrack_subset arr fuel2 start current.
Proof.
  revert fuel2 start current.
  induction fuel1 as [|fuel1 IH]; intros fuel2 start current H1 H2;
    destruct fuel2 as [|fuel2]; cbn [backtrack_subset]; try done;
    try (replace (length arr - start) with 0 by lia; done).
  f_equal.
  assert (∀ k, k ∈ seq start (length arr - start) → start ≤ k) as His
    by (intros k ?%elem_of_seq; lia).
  revert His. generalize (seq start (length arr - start)). intros idxs His.
  induction idxs as [|i idxs IHis]; [done|].
  rewrite !bind_cons. f_equal.
  - assert (start ≤ i) as Hi by (apply His; left). apply IH; lia.
  - apply IHis. intros k Hk. apply His. by right.
Qed.
(** ** The two phases of the brute-force search *)

Section phases.
Variable n : nat.
Variable edge_set : gset (Z * Z).

Lemma check_perm_path st perm :
  hamiltonian_path (check_perm n edge_set st perm)
  = if is_valid_path edge_set perm && bool_decide (hamiltonian_path st = [])
    then perm else hamiltonian_path st.
Proof.
  unfold check_perm.
  destruct (is_valid_path edge_set perm); [|done].
  destruct ((3 <=? length perm) && _), (bool_decide (hamiltonian_path st = []));
    simpl; by repeat case_match.
Qed.

Lemma check_perm_cycle st perm :
  length perm = n →
  hamiltonian_cycle (check_perm n edge_set st perm)
  = if closes_cycle edge_set perm && bool_decide (hamiltonian_cycle st = [])
    then perm ++ [first perm] else hamiltonian_cycle st.
Proof.
  intros Hlen. unfold check_perm, closes_cycle.
  destruct (is_valid_path edge_set perm); [|done].
  destruct ((3 <=? length perm) && _), (bool_decide (hamiltonian_path st = []));
    simpl; rewrite ?Hlen, ?Nat.eqb_refl; simpl; by repeat case_match.
Qed.

Lemma check_perm_largest st perm :
  largest_cycle_size (check_perm n edge_set st perm)
  = if closes_cycle edge_set perm
    then largest_cycle_size st `max` length perm else largest_cycle_size st.
Proof.
  unfold check_perm, closes_cycle.
  destruct (is_valid_path edge_set perm); [|done].
  destruct ((3 <=? length perm) && _), (bool_decide (hamiltonian_path st = []));
    simpl; by repeat case_match.
Qed.

(** The state after the first loop, from any state before it. *)
Lemma first_phase perms st :
  1 ≤ n → (∀ p, p ∈ perms → length p = n) →
  let st' := foldl (check_perm n edge_set) st perms in
  hamiltonian_path st'
  = (if bool_decide (hamiltonian_path st = [])
     then default [] (find (is_valid_path edge_set) perms)
     else hamiltonian_path st) ∧
  hamiltonian_cycle st'
  = (if bool_decide (hamiltonian_cycle st = [])
     then from_option (λ p, p ++ [first p]) [] (find (closes_cycle edge_set) perms)
     else hamiltonian_cycle st) ∧
  largest_cycle_size st'
  = match find (closes_cycle edge_set) perms with
    | Some _ => largest_cycle_size st `max` n
    | None => largest_cycle_size st
    end.
Proof.
  intros Hn. revert st. induction perms as [|p ps IH]; intros st Hlen; simpl.
  - repeat split; by case_bool_decide.
  - assert (length p = n) as Hp by (apply Hlen; left).
    assert (p ≠ []) as Hne by (intros ->; simpl in Hp; lia).
    destruct (IH (check_perm n edge_set st p)) as (IHp & IHc & IHl).
    { intros q Hq. apply Hlen. by right. }
    rewrite IHp, IHc, IHl, check_perm_path, (check_perm_cycle _ _ Hp),
      check_perm_largest, Hp.
    repeat split.
    + destruct (is_valid_path edge_set p); simpl; [|done].
      destruct (bool_decide_reflect (hamiltonian_path st = []));
        by rewrite bool_decide_false.
    + destruct (closes_cycle edge_set p); simpl; [|done].
      destruct (bool_decide_reflect (hamiltonian_cycle st = []));
        rewrite bool_decide_false; try done. by destruct p.
    + destruct (closes_cycle edge_set p); simpl; [|done].
      destruct (find (closes_cycle edge_set) ps); [|done].
      by rewrite <- Nat.max_assoc, Nat.max_id.
Qed.

Lemma check_subset_perm_fold perms acc :
  let r := foldl (check_subset_perm edge_set) acc perms in
  acc ≤ r ∧
  (∀ p, p ∈ perms →
     is_valid_path edge_set p && has_edge edge_set (final p) (first p) = true →
     length p ≤ r) ∧
  (r = acc ∨ ∃ p, p ∈ perms ∧
     is_valid_path edge_set p && has_edge edge_set (final p) (first p) = true ∧
     r = length p).
Proof.
  revert acc. induction perms as [|p ps IH]; intros acc; simpl.
  - split; [done|]. split; [|by left]. intros p Hp. inversion Hp.
  - destruct (IH (check_subset_perm edge_set acc p)) as (IHle & IHall & IHone).
    unfold check_subset_perm in *.
    destruct (is_valid_path edge_set p && has_edge edge_set (final p) (first p))
      eqn:Hok.
    + split; [lia|]. split.
      * intros q [->|Hq]%elem_of_cons Hq'; [lia|by apply IHall].
      * destruct IHone as [->|(q & Hq & Hq' & ->)].
        -- destruct (Nat.max_spec acc (length p)) as [[_ ->]|[_ ->]].
           ++ right. exists p. split; [left|done].
           ++ by left.
        -- right. exists q. split; [by right|done].
    + split; [done|]. split.
      * intros q [->|Hq]%elem_of_cons Hq'; [congruence|by apply IHall].
      * destruct IHone as [->|(q & Hq & Hq' & ->)]; [by left|].
        right. exists q. split; [by right|done].
Qed.

(** The figure after the second phase is the largest of the figure before
    it and the lengths of the closing arrangements of the subsets. *)
Lemma check_subsets_fold subsets acc :
  let r := check_subsets edge_set subsets acc in
  acc ≤ r ∧
  (∀ s p, s ∈ subsets → p ∈ generate_permutations s →
     is_valid_path edge_set p && has_edge edge_set (final p) (first p) = true →
     length p ≤ r) ∧
  (r = acc ∨ ∃ s p, s ∈ subsets ∧ p ∈ generate_permutations s ∧
     is_valid_path edge_set p && has_edge edge_set (final p) (first p) = true ∧
     r = length p).
Proof.
  unfold check_subsets. revert acc.
  induction subsets as [|s ss IH]; intros acc; simpl.
  - split; [done|]. split; [|by left]. intros s p Hs. inversion Hs.
  - pose proof (check_subset_perm_fold (generate_permutations s) acc) as Hs.
    simpl in Hs. destruct Hs as (Hle & Hall & Hone).
    destruct (IH (foldl (check_subset_perm edge_set) acc (generate_permutations s)))
      as (IHle & IHall & IHone).
    split; [lia|]. split.
    + intros s' p [->|Hs']%elem_of_cons Hp Hok.
      * etrans; [by apply Hall|done].
      * by eapply IHall.
    + destruct IHone as [->|(s' & p & Hs' & Hp & Hok & ->)].
      * destruct Hone as [->|(p & Hp & Hok & ->)]; [by left|].
        right. exists s, p. split; [left|done].
      * right. exists s', p. split; [by right|done].
Qed.
End phases.
(** ** The state and the result of the brute-force search *)

Lemma sublist_full (l1 l2 : list Z) :
  l1 `sublist_of` l2 → length l2 ≤ length l1 → l1 = l2.
Proof.
  induction 1 as [|x l1 l2 Hs IH|x l1 l2 Hs IH]; simpl; intros Hlen.
  - done.
  - f_equal. apply IH. lia.
  - apply sublist_length in Hs. lia.
Qed.

Lemma find_Some_elem_of (f : list Z → bool) (l : list (list Z)) (p : list Z) :
  find f l = Some p → p ∈ l ∧ f p = true.
Proof. intros [Hin Hf]%find_some. by rewrite list_elem_of_In. Qed.

Lemma find_None_elem_of (f : list Z → bool) (l : list (list Z)) (p : list Z) :
  find f l = None → p ∈ l → f p = false.
Proof. intros Hnone Hin%list_elem_of_In. by eapply find_none. Qed.

Lemma first_phase_initial vertices edges :
  vertices ≠ [] →
  let edge_set := build_edge_set edges in
  let perms := generate_permutations vertices in
  let st := foldl (check_perm (length vertices) edge_set) (mkFound [] [] 0) perms in
  hamiltonian_path st = default [] (find (is_valid_path edge_set) perms) ∧
  hamiltonian_cycle st
  = from_option (λ p, p ++ [first p]) [] (find (closes_cycle edge_set) perms) ∧
  largest_cycle_size st
  = match find (closes_cycle edge_set) perms with
    | Some _ => length vertices
    | None => 0
    end.
Proof.
  intros Hne.
  assert (1 ≤ length vertices) as Hn by (destruct vertices; [done|simpl; lia]).
  apply (first_phase (length vertices) (build_edge_set edges)
           (generate_permutations vertices) (mkFound [] [] 0) Hn).
  apply generate_permutations_length.
Qed.

(** With no vertex the only arrangement is the empty one, which records
    nothing. *)
Lemma hamilton_bruteforce_nil edges :
  hamilton_bruteforce [] edges = mkResult false None false None 0.
Proof. done. Qed.

(** The five fields of the result for a non-empty vertex set. *)
Lemma hamilton_bruteforce_fields vertices edges :
  vertices ≠ [] →
  let edge_set := build_edge_set edges in
  let perms := generate_permutations vertices in
  let r := hamilton_bruteforce vertices edges in
  path r = find (is_valid_path edge_set) perms ∧
  path_exists r = bool_decide (is_Some (path r)) ∧
  cycle r = (λ p, p ++ [first p]) <$> find (closes_cycle edge_set) perms ∧
  cycle_exists r = bool_decide (is_Some (cycle r)) ∧
  largest r
  = match find (closes_cycle edge_set) perms with
    | Some _ => length vertices
    | None => check_subsets edge_set (generate_subsets vertices) 0
    end.
Proof.
  intros Hne. simpl.
  destruct (first_phase_initial vertices edges Hne) as (Hp & Hc & Hl).
  assert (1 ≤ length vertices) as Hn by (destruct vertices; [done|simpl; lia]).
  unfold hamilton_bruteforce. rewrite Hp, Hc, Hl. clear Hp Hc Hl.
  set (edge_set := build_edge_set edges).
  set (perms := generate_permutations vertices).
  assert (∀ p, p ∈ perms → p ≠ []) as Hperm.
  { intros p Hp%generate_permutations_length ->. simpl in Hp. lia. }
  assert (∀ f p, find f perms = Some p → (0 <? length p) = true) as Hfind.
  { intros f p [Hp _]%find_Some_elem_of. apply Hperm in Hp.
    destruct p; [done|]. done. }
  repeat split.
  - destruct (find (is_valid_path edge_set) perms) as [p|] eqn:E; simpl; [|done].
    by rewrite (Hfind _ _ E).
  - destruct (find (is_valid_path edge_set) perms) as [p|] eqn:E; simpl; [|done].
    by rewrite (Hfind _ _ E).
  - destruct (find (closes_cycle edge_set) perms) as [p|] eqn:E; simpl; [|done].
    rewrite length_app. simpl. by replace (length p + 1) with (S (length p)) by lia.
  - destruct (find (closes_cycle edge_set) perms) as [p|] eqn:E; simpl; [|done].
    rewrite length_app. simpl. by replace (length p + 1) with (S (length p)) by lia.
  - destruct (find (closes_cycle edge_set) perms) as [p|] eqn:E; simpl.
    + by rewrite Nat.ltb_irrefl.
    + destruct (Nat.ltb_spec 0 (length vertices)); [done|lia].
Qed.

(** *** Bounds on [largest_cycle_size] *)
Lemma bruteforce_largest_bounds vertices edges :
  vertices ≠ [] →
  largest (hamilton_bruteforce vertices edges) ≤ length vertices ∧
  (largest (hamilton_bruteforce vertices edges) = length vertices
   ↔ cycle_exists (hamilton_bruteforce vertices edges) = true).
Proof.
  intros Hne.
  destruct (hamilton_bruteforce_fields vertices edges Hne)
    as (_ & _ & Hc & Hce & Hl).
  assert (1 ≤ length vertices) as Hn by (destruct vertices; [done|simpl; lia]).
  rewrite Hl, Hce, Hc, bool_decide_eq_true.
  destruct (find (closes_cycle _) _) as [p|] eqn:E; simpl.
  { split; [lia|]. split; [by eauto|done]. }
  pose proof (check_subsets_fold (build_edge_set edges)
                (generate_subsets vertices) 0) as (_ & _ & Hone).
  simpl in Hone.
  assert (check_subsets (build_edge_set edges) (generate_subsets vertices) 0
          < length vertices) as Hlt.
  { destruct Hone as [->|(s & p & Hs & Hp & Hok & ->)]; [lia|].
    apply elem_of_generate_subsets in Hs as [Hlen Hs].
    pose proof (generate_permutations_length _ _ Hp) as Hpl.
    pose proof (sublist_length _ _ Hs) as Hsl.
    destruct (decide (length p = length vertices)) as [Heq|Hneq]; [|lia].
    assert (s = vertices) as -> by (apply sublist_full; [done|lia]).
    apply (find_None_elem_of _ _ p) in E; [|done].
    unfold closes_cycle in E. apply andb_true_iff in Hok as [Hv Hcl].
    rewrite Hv, Hcl, andb_true_r in E. cbn [andb] in E.
    apply Nat.leb_gt in E. lia. }
  split; [lia|]. split; [lia|]. by intros [? ?].
Qed.

(** ** What the brute-force search computes *)

Lemma bruteforce_path_hamiltonian vertices edges :
  vertices ≠ [] →
  path_exists (hamilton_bruteforce vertices edges) = true
  ↔ ∃ p, hamiltonian_path_of vertices edges p.
Proof.
  intros Hne.
  destruct (hamilton_bruteforce_fields vertices edges Hne) as (Hp & Hpe & _).
  rewrite Hpe, Hp, bool_decide_eq_true. split.
  - intros [p [Hin Hv]%find_Some_elem_of]. exists p. split.
    + by apply elem_of_generate_permutations.
    + by apply is_valid_path_spec.
  - intros (p & Hperm & Hadj).
    destruct (find _ _) eqn:E; [done|].
    apply (find_None_elem_of _ _ p) in E.
    + apply is_valid_path_spec in Hadj. congruence.
    + by apply elem_of_generate_permutations.
Qed.

Lemma closing_simple_cycle vertices edges (s p : list Z) :
  NoDup vertices → s `sublist_of` vertices → p ≡ₚ s → 3 ≤ length p →
  is_valid_path (build_edge_set edges) p
  && has_edge (build_edge_set edges) (final p) (first p) = true →
  simple_cycle vertices edges p.
Proof.
  intros Hnd Hs Hp Hlen [Hv He]%andb_true_iff. repeat split; [done| | | |].
  - intros x Hx. rewrite Hp in Hx.
    by eapply elem_of_submseteq, sublist_submseteq.
  - by apply is_valid_path_spec.
  - rewrite Hp. by eapply sublist_NoDup.
  - by apply has_edge_adjacent.
Qed.

Lemma simple_cycle_closing vertices edges (c : list Z) :
  simple_cycle vertices edges c →
  is_valid_path (build_edge_set edges) c
  && has_edge (build_edge_set edges) (final c) (first c) = true.
Proof.
  intros (_ & _ & [Hadj _] & Hclose). apply andb_true_iff. split.
  - by apply is_valid_path_spec.
  - by apply has_edge_adjacent.
Qed.

(** [largest] is the size of the largest simple cycle of the graph, for
    every vertex set. *)
Lemma bruteforce_largest_simple_cycle vertices edges :
  NoDup vertices →
  largest_simple_cycle vertices edges (largest (hamilton_bruteforce vertices edges)).
Proof.
  intros Hnd. destruct (decide (vertices = [])) as [->|Hne].
  { split; [|by left]. intros c Hc.
    by apply no_simple_cycle_below_three in Hc; [|simpl; lia]. }
  destruct (hamilton_bruteforce_fields vertices edges Hne) as (_ & _ & _ & _ & Hl).
  rewrite Hl. clear Hl.
  destruct (find (closes_cycle _) _) as [p|] eqn:E.
  - split.
    + intros c (_ & Hsub & [_ Hc] & _). by apply NoDup_subseteq_length.
    + right. exists p. apply find_Some_elem_of in E as [Hin Hcl].
      pose proof (generate_permutations_length _ _ Hin) as Hpl.
      apply elem_of_generate_permutations in Hin.
      unfold closes_cycle in Hcl.
      apply andb_true_iff in Hcl as [Hv [Hlen%Nat.leb_le He]%andb_true_iff].
      split; [|done]. apply closing_simple_cycle with vertices; try done.
      by rewrite Hv, He.
  - pose proof (check_subsets_fold (build_edge_set edges)
                  (generate_subsets vertices) 0) as (_ & Hall & Hone).
    simpl in Hall, Hone. split.
    + intros c Hc. pose proof Hc as (Hlen & Hsub & [_ Hcnd] & _).
      set (s := filter (λ x, x ∈ c) vertices).
      assert (c ≡ₚ s) as Hperm.
      { apply NoDup_Permutation; [done|by apply NoDup_filter|].
        intros x. unfold s. rewrite list_elem_of_filter. split; [|tauto].
        intros Hx. split; [done|by apply Hsub]. }
      apply (Hall s c).
      * apply elem_of_generate_subsets. split; [by rewrite <- Hperm|].
        apply sublist_filter.
      * by apply elem_of_generate_permutations.
      * by eapply simple_cycle_closing.
    + destruct Hone as [->|(s & p & Hs & Hp & Hok & ->)]; [by left|].
      right. exists p. split; [|done].
      apply elem_of_generate_subsets in Hs as [Hlen Hs].
      apply elem_of_generate_permutations in Hp.
      apply closing_simple_cycle with s; try done. by rewrite Hp.
Qed.

(** ** The two searches compared *)

Lemma largest_simple_cycle_unique vertices edges (k1 k2 : nat) :
  largest_simple_cycle vertices edges k1 →
  largest_simple_cycle vertices edges k2 → k1 = k2.
Proof.
  intros [Hall1 Hone1] [Hall2 Hone2].
  assert (k1 ≤ k2).
  { destruct Hone1 as [->|(c & Hc & <-)]; [lia|by apply Hall2]. }
  assert (k2 ≤ k1).
  { destruct Hone2 as [->|(c & Hc & <-)]; [lia|by apply Hall1]. }
  lia.
Qed.

(** On a valid input whose vertex count is not 2, [hamilton_backtracking]
    too returns the size of the largest simple cycle. *)
Lemma backtracking_largest_simple_cycle vertices edges :
  valid_input vertices edges → length vertices ≠ 2 →
  largest_simple_cycle vertices edges (largest (hamilton_backtracking vertices edges)).
Proof.
  intros Hvalid Hn2. split.
  - apply backtracking_finds_cycle.
  - by apply backtracking_largest_is_cycle.
Qed.

Lemma bool_eq_iff (a b : bool) : (a = true ↔ b = true) → a = b.
Proof. destruct a, b; intros [H1 H2]; auto. by symmetry; apply H1. Qed.

(** On every valid input whose vertex count is not 2 the two searches
    return the same flags and the same largest cycle size. *)
Lemma searches_agree vertices edges :
  valid_input vertices edges → length vertices ≠ 2 →
  path_exists (hamilton_backtracking vertices edges)
  = path_exists (hamilton_bruteforce vertices edges) ∧
  cycle_exists (hamilton_backtracking vertices edges)
  = cycle_exists (hamilton_bruteforce vertices edges) ∧
  largest (hamilton_backtracking vertices edges)
  = largest (hamilton_bruteforce vertices edges).
Proof.
  intros Hvalid Hn2. pose proof Hvalid as (Hne & Hnd & _).
  assert (largest (hamilton_backtracking vertices edges)
          = largest (hamilton_bruteforce vertices edges)) as Hl.
  { apply (largest_simple_cycle_unique vertices edges).
    - by apply backtracking_largest_simple_cycle.
    - by apply bruteforce_largest_simple_cycle. }
  split; [|split; [|done]].
  - apply bool_eq_iff. rewrite bruteforce_path_hamiltonian by done. split.
    + intros (p & _ & Hp)%backtracking_path_hamiltonian; [|done]. by exists p.
    + intros [p Hp]. by eapply backtracking_finds_path.
  - apply bool_eq_iff.
    destruct (bruteforce_largest_bounds vertices edges Hne) as [_ <-].
    pose proof (backtracking_largest vertices edges Hne) as [_ Hiff].
    simpl in Hiff. rewrite starts_logged_erase in Hiff. simpl in Hiff.
    rewrite <- Hl. rewrite hamilton_backtracking_largest.
    unfold hamilton_backtracking. simpl. by rewrite bool_decide_eq_true.
Qed.
(** * Results about the two searches *)

(** The expected output rows of the module docstring for its first two
    instances (algorithm [BruteForce]), with the vertices iterated in
    ascending order; the third instance is claim C9 below. *)
Example documented_instance_1 :
  hamilton_bruteforce [1;2;3;4]%Z [(1,2);(1,4);(2,3);(2,4);(3,4)]%Z
  = mkResult true (Some [1;2;3;4]%Z) true (Some [1;2;3;4;1]%Z) 4.
Proof. vm_compute. reflexivity. Qed.

Example documented_instance_2 :
  hamilton_bruteforce [1;2;3;4;5;6]%Z
    [(1,5);(1,6);(2,3);(2,4);(2,6);(3,4);(3,5);(3,6);(4,5);(4,6)]%Z
  = mkResult true (Some [1;5;3;2;4;6]%Z) true (Some [1;5;3;2;4;6;1]%Z) 6.
Proof. vm_compute. reflexivity. Qed.

(** [hamilton_backtracking] returns the same on both. *)
Example backtracking_instance_1 :
  hamilton_backtracking [1;2;3;4]%Z [(1,2);(1,4);(2,3);(2,4);(3,4)]%Z
  = mkResult true (Some [1;2;3;4]%Z) true (Some [1;2;3;4;1]%Z) 4.
Proof. vm_compute. reflexivity. Qed.

Example backtracking_instance_2 :
  hamilton_backtracking [1;2;3;4;5;6]%Z
    [(1,5);(1,6);(2,3);(2,4);(2,6);(3,4);(3,5);(3,6);(4,5);(4,6)]%Z
  = mkResult true (Some [1;5;3;2;4;6]%Z) true (Some [1;5;3;2;4;6;1]%Z) 6.
Proof. vm_compute. reflexivity. Qed.

Lemma algorithms_cases (P : (list Z → list (Z * Z) → Result) → Prop) solve :
  solve ∈ algorithms → P hamilton_backtracking → P hamilton_bruteforce → P solve.
Proof.
  unfold algorithms.
  intros [->|[->|[]%elem_of_nil]%elem_of_cons]%elem_of_cons; auto.
Qed.

(** C10. For every input and both searches, [cycle_exists] (the spec's
    cycle_found) is true only if [path_exists] (path_found) is true: a
    Hamiltonian cycle is reported only together with a Hamiltonian path. *)
Theorem cycle_found_path_found solve vertices edges :
  solve ∈ algorithms →
  cycle_exists (solve vertices edges) = true →
  path_exists (solve vertices edges) = true.
Proof.
  intros Hsolve. pattern solve.
  apply (algorithms_cases _ solve Hsolve); clear solve Hsolve.
  - rewrite hamilton_backtracking_state. simpl.
    rewrite !bool_decide_eq_true. apply backtracking_cycle_path.
  - destruct (decide (vertices = [])) as [->|Hne]; [done|].
    destruct (hamilton_bruteforce_fields vertices edges Hne)
      as (Hp & Hpe & Hc & Hce & _).
    rewrite Hce, Hpe, Hc, Hp, !bool_decide_eq_true.
    destruct (find (closes_cycle _) _) as [p|] eqn:E.
    + intros _. apply find_Some_elem_of in E as [Hin Hcl].
      unfold closes_cycle in Hcl. apply andb_true_iff in Hcl as [Hv _].
      destruct (find (is_valid_path _) _) eqn:E'; [done|].
      apply (find_None_elem_of _ _ p) in E'; [congruence|done].
    + by intros [? ?].
Qed.

Lemma cycle_found_path_found_witness :
  hamilton_backtracking ∈ algorithms ∧
  cycle_exists (hamilton_backtracking [1;2;3;4]%Z
                  [(1,2);(1,4);(2,3);(2,4);(3,4)]%Z) = true ∧
  path_exists (hamilton_backtracking [1;2;3;4]%Z
                 [(1,2);(1,4);(2,3);(2,4);(3,4)]%Z) = true.
Proof.
  assert (hamilton_backtracking ∈ algorithms) as Hin by left.
  split; [exact Hin|]. split; [vm_compute; reflexivity|].
  apply (cycle_found_path_found _ _ _ Hin). vm_compute. reflexivity.
Defined.

(** C4. For every non-empty vertex set and both searches,
    [0 ≤ largest ≤ |vertices|] (largest is the spec's largest_cycle_size),
    and [largest = |vertices|] exactly when [cycle_exists] is true. *)
Theorem largest_cycle_size_bounds solve vertices edges :
  solve ∈ algorithms → vertices ≠ [] →
  0 ≤ largest (solve vertices edges) ≤ length vertices ∧
  (largest (solve vertices edges) = length vertices
   ↔ cycle_exists (solve vertices edges) = true).
Proof.
  intros Hsolve Hne. pattern solve.
  apply (algorithms_cases _ solve Hsolve); clear solve Hsolve.
  - rewrite hamilton_backtracking_state. simpl. rewrite bool_decide_eq_true.
    destruct (backtracking_largest vertices edges Hne) as [Hle Hiff].
    split; [lia|done].
  - destruct (bruteforce_largest_bounds vertices edges Hne) as [Hle Hiff].
    split; [lia|done].
Qed.

Lemma largest_cycle_size_bounds_witness :
  hamilton_bruteforce ∈ algorithms ∧ [1;2;3]%Z ≠ [] ∧
  0 ≤ largest (hamilton_bruteforce [1;2;3]%Z [(1,2);(2,3)]%Z) ≤ length [1;2;3]%Z ∧
  (largest (hamilton_bruteforce [1;2;3]%Z [(1,2);(2,3)]%Z) = length [1;2;3]%Z
   ↔ cycle_exists (hamilton_bruteforce [1;2;3]%Z [(1,2);(2,3)]%Z) = true).
Proof.
  assert (hamilton_bruteforce ∈ algorithms) as Hin by (right; left).
  assert ([1;2;3]%Z ≠ []) as Hne by discriminate.
  split; [exact Hin|]. split; [exact Hne|].
  exact (largest_cycle_size_bounds _ _ [(1,2);(2,3)]%Z Hin Hne).
Defined.
(** C6. For every vertex set (without duplicates, as a set has none) and
    both searches: a returned path has every consecutive pair of vertices
    joined by an edge of the input and has all its vertices distinct; a
    returned cycle ends with a repeat of its first vertex, and without that
    repeat it is such a valid path whose last and first vertices are joined
    by an edge. *)
Theorem returned_sequences_valid solve vertices edges :
  solve ∈ algorithms → NoDup vertices →
  (∀ p, path (solve vertices edges) = Some p → valid_path edges p) ∧
  (∀ c, cycle_exists (solve vertices edges) = true →
        cycle (solve vertices edges) = Some c → closed_cycle edges c).
Proof.
  intros Hsolve Hnd. pattern solve.
  apply (algorithms_cases _ solve Hsolve); clear solve Hsolve.
  - rewrite hamilton_backtracking_state. simpl.
    destruct (backtracking_valid vertices edges) as [Hp Hc]. split.
    + by intros p [= <-].
    + intros c Hne%bool_decide_eq_true [= <-]. by apply Hc.
  - destruct (decide (vertices = [])) as [->|Hne]; [done|].
    destruct (hamilton_bruteforce_fields vertices edges Hne)
      as (Hp & _ & Hc & _ & _).
    rewrite Hp, Hc. split.
    + intros p [Hin Hv]%find_Some_elem_of. split.
      * by apply is_valid_path_spec.
      * apply elem_of_generate_permutations in Hin. by rewrite Hin.
    + intros c _ Hfind.
      destruct (find (closes_cycle _) _) as [p|] eqn:E; [|done].
      injection Hfind as <-.
      apply find_Some_elem_of in E as [Hin Hcl].
      unfold closes_cycle in Hcl.
      apply andb_true_iff in Hcl as [Hv [Hlen He]%andb_true_iff].
      apply Nat.leb_le in Hlen.
      assert (p ≠ []) as Hpne by (intros ->; simpl in Hlen; lia).
      apply closed_cycle_intro with (final p).
      * split; [by apply is_valid_path_spec|].
        apply elem_of_generate_permutations in Hin. by rewrite Hin.
      * by apply final_last.
      * by apply has_edge_adjacent.
Qed.

Lemma returned_sequences_valid_witness :
  hamilton_bruteforce ∈ algorithms ∧ NoDup [1;2;3;4]%Z ∧
  (∀ p, path (hamilton_bruteforce [1;2;3;4]%Z
                [(1,2);(1,4);(2,3);(2,4);(3,4)]%Z) = Some p →
        valid_path [(1,2);(1,4);(2,3);(2,4);(3,4)]%Z p) ∧
  (∀ c, cycle_exists (hamilton_bruteforce [1;2;3;4]%Z
                        [(1,2);(1,4);(2,3);(2,4);(3,4)]%Z) = true →
        cycle (hamilton_bruteforce [1;2;3;4]%Z
                 [(1,2);(1,4);(2,3);(2,4);(3,4)]%Z) = Some c →
        closed_cycle [(1,2);(1,4);(2,3);(2,4);(3,4)]%Z c).
Proof.
  assert (hamilton_bruteforce ∈ algorithms) as Hin by (right; left).
  assert (NoDup [1;2;3;4]%Z) as Hnd 
    by (apply (bool_decide_unpack (NoDup [1;2;3;4]%Z)); vm_compute; exact I).
  split; [exact Hin|]. split; [exact Hnd|].
  exact (returned_sequences_valid _ _ _ Hin Hnd).
Defined.

Lemma find_ext_elem_of (f g : list Z → bool) (l : list (list Z)) :
  (∀ p, p ∈ l → f p = g p) → find f l = find g l.
Proof.
  induction l as [|p l IH]; intros Hfg; simpl; [done|].
  rewrite <- (Hfg p) by left. destruct (f p); [done|].
  apply IH. intros q Hq. apply Hfg. by right.
Qed.

(** C8. In [hamilton_bruteforce], on a non-empty vertex set: the list
    walked by the first loop holds exactly the arrangements of the vertex
    list; the path returned is the first arrangement in that list that is a
    valid path; a cycle returned is the first arrangement in that list that
    is a valid path and whose last vertex has an edge to its first, of
    length the vertex count, followed by a repeat of its first vertex; and
    with at least three vertices such a first arrangement is returned
    whenever there is one. *)
Theorem bruteforce_first_arrangements vertices edges :
  vertices ≠ [] →
  let edge_set := build_edge_set edges in
  let perms := generate_permutations vertices in
  let closing := λ p, is_valid_path edge_set p
                      && has_edge edge_set (final p) (first p) in
  (∀ p, p ∈ perms ↔ p ≡ₚ vertices) ∧
  path (hamilton_bruteforce vertices edges) = find (is_valid_path edge_set) perms ∧
  (∀ c, cycle (hamilton_bruteforce vertices edges) = Some c →
        ∃ p, find closing perms = Some p ∧ length p = length vertices ∧
             c = p ++ [first p]) ∧
  (3 ≤ length vertices →
   cycle (hamilton_bruteforce vertices edges)
   = (λ p, p ++ [first p]) <$> find closing perms).
Proof.
  intros Hne edge_set perms closing.
  destruct (hamilton_bruteforce_fields vertices edges Hne)
    as (Hp & _ & Hc & _ & _).
  fold edge_set perms in Hp, Hc.
  assert (3 ≤ length vertices →
          find (closes_cycle edge_set) perms = find closing perms) as Hsame.
  { intros Hn. apply find_ext_elem_of. intros p Hin%generate_permutations_length.
    unfold closes_cycle, closing. rewrite Hin.
    destruct (Nat.leb_spec 3 (length vertices)); [done|lia]. }
  split; [apply elem_of_generate_permutations|]. split; [done|]. split.
  - intros c Hcyc. rewrite Hc in Hcyc.
    destruct (find (closes_cycle edge_set) perms) as [p|] eqn:E; [|done].
    injection Hcyc as <-. exists p.
    pose proof E as [Hin Hcl]%find_Some_elem_of.
    apply generate_permutations_length in Hin.
    unfold closes_cycle in Hcl.
    apply andb_true_iff in Hcl as [_ [Hlen%Nat.leb_le _]%andb_true_iff].
    rewrite <- Hsame by lia. done.
  - intros Hn. by rewrite Hc, Hsame.
Qed.

Lemma bruteforce_first_arrangements_witness :
  [1;2;3;4]%Z ≠ [] ∧
  path (hamilton_bruteforce [1;2;3;4]%Z [(1,2);(1,4);(2,3);(2,4);(3,4)]%Z)
  = find (is_valid_path (build_edge_set [(1,2);(1,4);(2,3);(2,4);(3,4)]%Z))
         (generate_permutations [1;2;3;4]%Z).
Proof.
  assert ([1;2;3;4]%Z ≠ []) as Hne by discriminate.
  split; [exact Hne|].
  exact (proj1 (proj2 (bruteforce_first_arrangements [1;2;3;4]%Z
                         [(1,2);(1,4);(2,3);(2,4);(3,4)]%Z Hne))).
Defined.

(** C7 (as the code has it). In [hamilton_backtracking] every visited
    sequence that reaches the full vertex count is recorded as the
    Hamiltonian path, whether or not one was recorded before: the path
    returned is the last full-length sequence reached by the whole search
    (the empty list when none was reached). *)
Theorem recorded_path_is_latest vertices edges :
  path (hamilton_backtracking vertices edges)
  = Some (default [] (last (full_length_log vertices edges))).
Proof.
  rewrite hamilton_backtracking_state. simpl. f_equal.
  apply backtracking_path_latest.
Qed.

(** C7 (as stated) fails: on the path 1 - 2 - 3 the first full-length
    sequence reached is [1;2;3] (from start vertex 1); start vertex 3 later
    reaches [3;2;1], which replaces it although a path was already set. *)
Lemma recorded_path_not_first :
  full_length_log [1;2;3]%Z [(1,2);(2,3)]%Z = [[1;2;3]; [3;2;1]]%Z ∧
  path (hamilton_backtracking [1;2;3]%Z [(1,2);(2,3)]%Z) = Some [3;2;1]%Z ∧
  path (hamilton_backtracking [1;2;3]%Z [(1,2);(2,3)]%Z)
  ≠ Some (default [] (head (full_length_log [1;2;3]%Z [(1,2);(2,3)]%Z))).
Proof. repeat split; vm_compute; congruence. Qed.

(** The same within one start vertex: from 1 the search first reaches
    [1;2;3;4] and then [1;2;4;3], which replaces it. *)
Example recorded_path_overwritten_same_start :
  recurse_logged 4 [(1,2);(2,3);(3,4);(2,4)]%Z 4 (mkState [] [] 0, []) [1%Z] 1%Z
  = (mkState [1;2;4;3]%Z [] 0, [[1;2;3;4]; [1;2;4;3]]%Z).
Proof. vm_compute. reflexivity. Qed.

(** C9 holds in [hamilton_bruteforce] and, for the two flags and the size,
    in [hamilton_backtracking]; it fails in the path and cycle fields of
    [hamilton_backtracking].  On vertices {1,2,3,4,5}, in any iteration
    order, with edges 1-5, 2-3, 3-5, 4-5, both searches return
    [path_exists = false], [cycle_exists = false] and [largest = 0];
    [hamilton_bruteforce] returns [None] for the path and for the cycle, as
    the expected output row of the module docstring has it, while
    [hamilton_backtracking] returns the empty list for both (line 131), not
    [None]. *)
Theorem scenario3 vertices :
  vertices ≡ₚ [1;2;3;4;5]%Z →
  hamilton_backtracking vertices [(1,5);(2,3);(3,5);(4,5)]%Z
  = mkResult false (Some []) false (Some []) 0 ∧
  path (hamilton_backtracking vertices [(1,5);(2,3);(3,5);(4,5)]%Z) ≠ None ∧
  cycle (hamilton_backtracking vertices [(1,5);(2,3);(3,5);(4,5)]%Z) ≠ None ∧
  hamilton_bruteforce vertices [(1,5);(2,3);(3,5);(4,5)]%Z
  = mkResult false None false None 0.
Proof.
  intros Hperm%elem_of_generate_permutations%list_elem_of_In.
  assert (forallb (λ vs,
            bool_decide
              (hamilton_backtracking vs [(1,5);(2,3);(3,5);(4,5)]%Z
               = mkResult false (Some []) false (Some []) 0 ∧
               hamilton_bruteforce vs [(1,5);(2,3);(3,5);(4,5)]%Z
               = mkResult false None false None 0))
            (generate_permutations [1;2;3;4;5]%Z) = true) as Hall
    by (vm_compute; reflexivity).
  rewrite forallb_forall in Hall. apply Hall in Hperm.
  apply bool_decide_eq_true in Hperm as [Hbt Hbf].
  split; [done|]. rewrite Hbt. simpl. done.
Qed.

Lemma scenario3_witness :
  [1;2;3;4;5]%Z ≡ₚ [1;2;3;4;5]%Z ∧
  hamilton_backtracking [1;2;3;4;5]%Z [(1,5);(2,3);(3,5);(4,5)]%Z
  = mkResult false (Some []) false (Some []) 0 ∧
  path (hamilton_backtracking [1;2;3;4;5]%Z [(1,5);(2,3);(3,5);(4,5)]%Z) ≠ None ∧
  cycle (hamilton_backtracking [1;2;3;4;5]%Z [(1,5);(2,3);(3,5);(4,5)]%Z) ≠ None ∧
  hamilton_bruteforce [1;2;3;4;5]%Z [(1,5);(2,3);(3,5);(4,5)]%Z
  = mkResult false None false None 0.
Proof.
  assert ([1;2;3;4;5]%Z ≡ₚ [1;2;3;4;5]%Z) as Hperm by reflexivity.
  split; [exact Hperm|]. exact (scenario3 _ Hperm).
Defined.

(** ** Where [hamilton_backtracking] departs from its contract *)

Lemma valid_input_two : valid_input [1;2]%Z [(1,2)]%Z.
Proof.
  split; [done|]. split.
  - apply (bool_decide_unpack (NoDup [1;2]%Z)). vm_compute. exact I.
  - intros u v [= -> ->]%list_elem_of_singleton.
    repeat split; [left|right; left|done].
Qed.

(** [hamilton_bruteforce] never reports a cycle on fewer than three
    vertices: line 202 asks for [len(perm) >= 3], and no subset has three
    elements. *)
Lemma bruteforce_below_three vertices edges :
  length vertices < 3 →
  cycle_exists (hamilton_bruteforce vertices edges) = false ∧
  cycle (hamilton_bruteforce vertices edges) = None ∧
  largest (hamilton_bruteforce vertices edges) = 0.
Proof.
  intros Hlen. destruct (decide (vertices = [])) as [->|Hne]; [done|].
  destruct (hamilton_bruteforce_fields vertices edges Hne)
    as (_ & _ & Hc & Hce & Hl).
  assert (find (closes_cycle (build_edge_set edges))
               (generate_permutations vertices) = None) as Hnone.
  { destruct (find _ _) as [p|] eqn:E; [|done].
    apply find_Some_elem_of in E as [Hin Hcl].
    apply generate_permutations_length in Hin. unfold closes_cycle in Hcl.
    apply andb_true_iff in Hcl as [_ [Hp%Nat.leb_le _]%andb_true_iff]. lia. }
  assert (generate_subsets vertices = []) as Hsubsets.
  { destruct (generate_subsets vertices) as [|s ss] eqn:E; [done|].
    assert (s ∈ generate_subsets vertices) as [Hs Hsub]%elem_of_generate_subsets
      by (rewrite E; left).
    apply sublist_length in Hsub. lia. }
  rewrite Hce, Hc, Hl, Hnone, Hsubsets. done.
Qed.

(** C2 holds in [hamilton_bruteforce] ([bruteforce_below_three]) and fails
    in [hamilton_backtracking]: on two vertices joined by an edge the base
    case (lines 93-97) tests the edge back to the start without the
    [len(visited) >= 3] of line 88, and reports the cycle [1;2;1] of size
    2. *)
Theorem two_vertices_backtracking :
  length [1;2]%Z < 3 ∧
  hamilton_backtracking [1;2]%Z [(1,2)]%Z
  = mkResult true (Some [1;2]%Z) true (Some [1;2;1]%Z) 2 ∧
  hamilton_bruteforce [1;2]%Z [(1,2)]%Z
  = mkResult true (Some [1;2]%Z) false None 0.
Proof. split; [simpl; lia|]. split; vm_compute; reflexivity. Qed.

(** C1 fails on the same input: it is a valid input of two vertices, and
    the two searches disagree on [cycle_exists] and on [largest]. *)
Theorem two_vertices_disagreement :
  valid_input [1;2]%Z [(1,2)]%Z ∧ length [1;2]%Z ≤ 8 ∧
  path_exists (hamilton_backtracking [1;2]%Z [(1,2)]%Z)
  = path_exists (hamilton_bruteforce [1;2]%Z [(1,2)]%Z) ∧
  cycle_exists (hamilton_backtracking [1;2]%Z [(1,2)]%Z) = true ∧
  cycle_exists (hamilton_bruteforce [1;2]%Z [(1,2)]%Z) = false ∧
  largest (hamilton_backtracking [1;2]%Z [(1,2)]%Z) = 2 ∧
  largest (hamilton_bruteforce [1;2]%Z [(1,2)]%Z) = 0.
Proof.
  split; [apply valid_input_two|]. split; [simpl; lia|].
  repeat split; vm_compute; reflexivity.
Qed.

(** C5 fails on the same input in [hamilton_backtracking]: the graph has no
    simple cycle, hence no Hamiltonian cycle, yet [largest] is 2 and not 0. *)
Theorem two_vertices_largest :
  valid_input [1;2]%Z [(1,2)]%Z ∧
  (∀ c, ¬ simple_cycle [1;2]%Z [(1,2)]%Z c) ∧
  (∀ c, ¬ hamiltonian_cycle_of [1;2]%Z [(1,2)]%Z c) ∧
  largest (hamilton_backtracking [1;2]%Z [(1,2)]%Z) = 2 ∧
  largest (hamilton_bruteforce [1;2]%Z [(1,2)]%Z) = 0.
Proof.
  split; [apply valid_input_two|].
  assert (∀ c, ¬ simple_cycle [1;2]%Z [(1,2)]%Z c) as Hnone.
  { intros c. apply no_simple_cycle_below_three. simpl. lia. }
  split; [done|]. split; [intros c [Hc _]; by eapply Hnone|].
  split; vm_compute; reflexivity.
Qed.

(** [hamilton_bruteforce] returns [None] exactly when the flag is false
    (lines 223-226). *)
Lemma bruteforce_absent vertices edges :
  let r := hamilton_bruteforce vertices edges in
  (path r = None ↔ path_exists r = false) ∧
  (cycle r = None ↔ cycle_exists r = false).
Proof.
  simpl. unfold hamilton_bruteforce. simpl.
  split; (destruct (0 <? length _); [split; intros [=]|done]).
Qed.

(** [hamilton_backtracking] returns its two lists as they are (line 131). *)
Lemma backtracking_never_absent vertices edges :
  let r := hamilton_backtracking vertices edges in
  path r ≠ None ∧ cycle r ≠ None ∧
  (path r = Some [] ↔ path_exists r = false) ∧
  (cycle r = Some [] ↔ cycle_exists r = false).
Proof.
  simpl. unfold hamilton_backtracking. simpl.
  split; [done|]. split; [done|].
  rewrite !bool_decide_eq_false. split; split.
  - intros [= ->]. by intros ?.
  - intros H. f_equal. by destruct (decide (Hamiltonian_Path
      (starts (length vertices) edges vertices (mkState [] [] 0)) = [])).
  - intros [= ->]. by intros ?.
  - intros H. f_equal. by destruct (decide (Hamiltonian_Cycle
      (starts (length vertices) edges vertices (mkState [] [] 0)) = [])).
Qed.

(** C3 holds in [hamilton_bruteforce] ([bruteforce_absent]) and fails in
    [hamilton_backtracking]: on the graph of the third documented instance,
    for which the expected output row shows [None,None], both flags are
    false and the two fields hold the empty list, not [None]. *)
Theorem backtracking_empty_not_absent :
  hamilton_backtracking [1;2;3;4;5]%Z [(1,5);(2,3);(3,5);(4,5)]%Z
  = mkResult false (Some []) false (Some []) 0 ∧
  path (hamilton_backtracking [1;2;3;4;5]%Z [(1,5);(2,3);(3,5);(4,5)]%Z) ≠ None ∧
  cycle (hamilton_backtracking [1;2;3;4;5]%Z [(1,5);(2,3);(3,5);(4,5)]%Z) ≠ None ∧
  hamilton_bruteforce [1;2;3;4;5]%Z [(1,5);(2,3);(3,5);(4,5)]%Z
  = mkResult false None false None 0.
Proof. repeat split; vm_compute; congruence. Qed.
(** ** Counting the enumerations *)

Lemma length_bind_const {A B} (f : A → list B) (l : list A) (k : nat) :
  (∀ x, x ∈ l → length (f x) = k) → length (l ≫= f) = length l * k.
Proof.
  induction l as [|x l IH]; intros Hf; [done|].
  rewrite bind_cons, length_app, IH, Hf; [simpl; lia|left|].
  intros y Hy. apply Hf. by right.
Qed.

Lemma length_backtrack fuel current remaining :
  length remaining ≤ fuel →
  length (backtrack fuel current remaining) = fact (length remaining).
Proof.
  revert current remaining.
  induction fuel as [|fuel IH]; intros current [|r0 rs] Hfuel; try done.
  { simpl in Hfuel. lia. }
  cbn [backtrack]. set (remaining := r0 :: rs) in *.
  rewrite (length_bind_const _ _ (fact (length rs))).
  - rewrite length_seq. done.
  - intros i Hi%elem_of_seq. rewrite IH; rewrite length_without;
      unfold remaining in *; simpl in *; try lia. by rewrite Nat.sub_0_r.
Qed.

Lemma NoDup_backtrack fuel current remaining :
  length remaining ≤ fuel → NoDup remaining →
  NoDup (backtrack fuel current remaining).
Proof.
  revert current remaining.
  induction fuel as [|fuel IH]; intros current [|r0 rs] Hfuel Hnd;
    try apply NoDup_singleton.
  { simpl in Hfuel. lia. }
  cbn [backtrack]. set (remaining := r0 :: rs) in *.
  apply NoDup_bind; [| |apply NoDup_seq].
  - intros i j p Hi%elem_of_seq Hj%elem_of_seq Hpi Hpj.
    apply elem_of_backtrack in Hpi as (qi & -> & _);
      [|rewrite length_without; simpl in *; lia].
    apply elem_of_backtrack in Hpj as (qj & Heq & _);
      [|rewrite length_without; simpl in *; lia].
    rewrite <- !app_assoc in Heq. apply app_inv_head in Heq.
    injection Heq as Heq _.
    apply (NoDup_lookup remaining i j (remaining !!! i)); [done| |].
    + apply lookup_total_Some. lia.
    + rewrite Heq. apply lookup_total_Some. lia.
  - intros i Hi%elem_of_seq. apply IH; [rewrite length_without; simpl in *; lia|].
    assert (remaining !! i = Some (remaining !!! i)) as Hx
      by (apply lookup_total_Some; lia).
    apply Permutation_without in Hx. rewrite Hx in Hnd.
    by apply NoDup_cons in Hnd as [_ ?].
Qed.

Lemma NoDup_backtrack_subset arr fuel start current :
  length arr - start ≤ fuel → NoDup arr →
  NoDup (backtrack_subset arr fuel start current).
Proof.
  intros Hfuel Hnd. revert start current Hfuel.
  induction fuel as [|fuel IH]; intros start current Hfuel;
    cbn [backtrack_subset].
  { rewrite app_nil_r. destruct (3 <=? length current);
      [apply NoDup_singleton|apply NoDup_nil_2]. }
  apply NoDup_app. split_and!.
  - destruct (3 <=? length current); [apply NoDup_singleton|apply NoDup_nil_2].
  - intros r Hr (i & Hri & Hi%elem_of_seq)%list_elem_of_bind.
    apply elem_of_backtrack_subset in Hri as (_ & s & -> & _); [|lia].
    destruct (3 <=? length current); [|by apply elem_of_nil in Hr].
    apply list_elem_of_singleton in Hr.
    apply (f_equal length) in Hr. rewrite !length_app in Hr. simpl in Hr. lia.
  - apply NoDup_bind; [| |apply NoDup_seq].
    + intros i j r Hi%elem_of_seq Hj%elem_of_seq Hri Hrj.
      apply elem_of_backtrack_subset in Hri as (_ & si & -> & _); [|lia].
      apply elem_of_backtrack_subset in Hrj as (_ & sj & Heq & _); [|lia].
      rewrite <- !app_assoc in Heq. apply app_inv_head in Heq.
      injection Heq as Heq _.
      apply (NoDup_lookup arr i j (arr !!! i)); [done| |].
      * apply lookup_total_Some. lia.
      * rewrite Heq. apply lookup_total_Some. lia.
    + intros i Hi%elem_of_seq. apply IH. lia.
Qed.

(** ** The adjacency tests of the two searches *)

Lemma adjacent_sym edges (u v : Z) : adjacent edges u v ↔ adjacent edges v u.
Proof. unfold adjacent. tauto. Qed.

Lemma check_for_cycle_has_edge edges (u v : Z) :
  check_for_cycle edges u v = has_edge (build_edge_set edges) u v.
Proof.
  apply bool_eq_iff. by rewrite check_for_cycle_adjacent, has_edge_adjacent.
Qed.

Lemma consecutive_adjacent_reverse_1 edges (p : list Z) :
  consecutive_adjacent edges p → consecutive_adjacent edges (reverse p).
Proof.
  intros Hp i u v [Hu Hi]%reverse_lookup_Some [Hv HSi]%reverse_lookup_Some.
  apply adjacent_sym. apply (Hp (length p - S (S i))); [done|].
  by replace (S (length p - S (S i))) with (length p - S i) by lia.
Qed.

Lemma consecutive_adjacent_reverse edges (p : list Z) :
  consecutive_adjacent edges (reverse p) ↔ consecutive_adjacent edges p.
Proof.
  split; [|apply consecutive_adjacent_reverse_1].
  intros H%consecutive_adjacent_reverse_1. by rewrite reverse_involutive in H.
Qed.

(** ** More on what the backtracking search returns *)

Section cycle_path.
Variable Num_Vertices : nat.
Variable edges : list (Z * Z).

(** Line 94 and line 96 record the same sequence, and nothing is recorded
    after line 96 has run: the search is only continued from states with an
    empty [Hamiltonian_Cycle]. *)
Lemma extend_cycle_path rec visited cur_node es st :
  (∀ st' nb, Hamiltonian_Cycle st' = [] →
     cycle_closes_path (rec st' (visited ++ [nb]) nb)) →
  Hamiltonian_Cycle st = [] →
  cycle_closes_path (extend rec visited cur_node es st).
Proof.
  intros Hrec. revert st.
  induction es as [|e es IH]; intros st Hst; simpl; [by intros ?|].
  destruct (neighbor e visited cur_node) as [nb|]; [|by apply IH].
  case_bool_decide as Hc; [by apply Hrec|].
  apply IH. by destruct (decide (Hamiltonian_Cycle (rec st (visited ++ [nb]) nb) = [])).
Qed.

Lemma recurse_cycle_path fuel st visited cur_node :
  Hamiltonian_Cycle st = [] →
  cycle_closes_path (recurse Num_Vertices edges fuel st visited cur_node).
Proof.
  revert st visited cur_node.
  induction fuel as [|fuel IH]; intros st visited cur_node Hst; simpl;
    destruct (Num_Vertices =? length visited).
  - unfold complete. destruct (check_for_cycle _ _ _); [by intros _|].
    intros Hc. simpl in Hc. by rewrite note_cycle_cycle in Hc.
  - intros Hc. by rewrite note_cycle_cycle in Hc.
  - unfold complete. destruct (check_for_cycle _ _ _); [by intros _|].
    intros Hc. simpl in Hc. by rewrite note_cycle_cycle in Hc.
  - apply extend_cycle_path; [|by rewrite note_cycle_cycle].
    intros st' nb. apply IH.
Qed.

Lemma starts_cycle_path vs st :
  Hamiltonian_Cycle st = [] →
  cycle_closes_path (starts Num_Vertices edges vs st).
Proof.
  revert st. induction vs as [|s vs IH]; intros st Hst; simpl; [by intros ?|].
  case_bool_decide as Hc; [by apply recurse_cycle_path|].
  apply IH.
  by destruct (decide (Hamiltonian_Cycle
    (recurse Num_Vertices edges Num_Vertices st [s] s) = [])).
Qed.
End cycle_path.

(** [Largest_Cycle_Size] is only ever given the length of a sequence of at
    least three vertices or of a full-length one. *)
Lemma backtracking_largest_values vertices edges :
  let st := (starts_logged (length vertices) edges vertices (mkState [] [] 0, [])).1 in
  Largest_Cycle_Size st = 0 ∨ 3 ≤ Largest_Cycle_Size st ∨
  Largest_Cycle_Size st = length vertices.
Proof.
  apply (search_invariant
    (λ sl, Largest_Cycle_Size sl.1 = 0 ∨ 3 ≤ Largest_Cycle_Size sl.1 ∨
           Largest_Cycle_Size sl.1 = length vertices)); simpl.
  - by left.
  - intros sl visited cur_node _ _ HP. unfold note_cycle.
    destruct (_ && _) eqn:Hcond; simpl; [|done].
    apply andb_true_iff in Hcond as [Hlen%Nat.leb_le _]. right. left. lia.
  - intros sl visited cur_node _ Hfull HP. unfold complete, note_cycle.
    destruct (check_for_cycle edges cur_node (first visited)); simpl.
    + by right; right.
    + by rewrite andb_false_r.
Qed.

(** A Hamiltonian path whose last vertex is adjacent to its first makes
    the search record a cycle. *)
Lemma backtracking_finds_closing_path vertices edges (p : list Z) :
  vertices ≠ [] → NoDup vertices →
  closing_hamiltonian_path vertices edges p →
  cycle_exists (hamilton_backtracking vertices edges) = true.
Proof.
  intros Hne Hnd [[Hperm Hadj] Hclose].
  assert (p ≠ []) as Hp by (intros ->; by apply Permutation_nil_l in Hperm).
  set (T := λ st : State, Hamiltonian_Cycle st ≠ []).
  assert (T (starts (length vertices) edges vertices (mkState [] [] 0))) as HT.
  { apply search_reaches with p; try done.
    - intros st v cur HT. unfold T. by rewrite note_cycle_cycle.
    - intros st v cur Hv HT. unfold T, complete.
      destruct (check_for_cycle _ _ _); simpl; [by destruct v|done].
    - intros fuel st. rewrite recurse_full by (by rewrite Hperm).
      unfold T, complete.
      rewrite (proj2 (check_for_cycle_adjacent edges _ _) Hclose). simpl.
      by destruct p.
    - rewrite <- Hperm. destruct p; [done|]. left.
    - split; [done|]. by rewrite Hperm.
    - by rewrite Hperm. }
  unfold hamilton_backtracking. simpl. by apply bool_decide_eq_true.
Qed.

(** A recorded cycle is a Hamiltonian path closed by its first vertex. *)
Lemma backtracking_cycle_hamiltonian vertices edges :
  valid_input vertices edges →
  cycle_exists (hamilton_backtracking vertices edges) = true →
  ∃ p, path (hamilton_backtracking vertices edges) = Some p ∧
       cycle (hamilton_backtracking vertices edges) = Some (p ++ [first p]) ∧
       closing_hamiltonian_path vertices edges p.
Proof.
  intros Hvalid Hce.
  assert (path_exists (hamilton_backtracking vertices edges) = true) as Hpe.
  { revert Hce. rewrite hamilton_backtracking_state. simpl.
    rewrite !bool_decide_eq_true. apply backtracking_cycle_path. }
  destruct (backtracking_path_hamiltonian vertices edges Hvalid Hpe)
    as (p & Hp & Hham).
  pose proof (starts_cycle_path (length vertices) edges vertices
                (mkState [] [] 0) eq_refl) as Hcp.
  pose proof (backtracking_valid vertices edges) as [_ Hcl].
  simpl in Hcl. rewrite starts_logged_erase in Hcl. simpl in Hcl.
  unfold hamilton_backtracking in *. simpl in *.
  apply bool_decide_eq_true in Hce. injection Hp as Hp.
  specialize (Hcp Hce). specialize (Hcl Hce). rewrite Hp in Hcp.
  exists p. split; [by rewrite Hp|]. split; [by rewrite Hcp|].
  split; [done|].
  destruct Hcl as (p' & x & y & Heq & _ & _ & Hhead & Hlast & Hadj).
  rewrite Hcp in Heq. apply app_inj_tail in Heq as [<- <-].
  unfold final. by rewrite Hlast.
Qed.

(** With two vertices the figure is 2 with a cycle recorded and 0
    without. *)
Lemma backtracking_largest_two vertices edges :
  length vertices = 2 →
  largest (hamilton_backtracking vertices edges)
  = if cycle_exists (hamilton_backtracking vertices edges) then 2 else 0.
Proof.
  intros Hlen.
  assert (vertices ≠ []) as Hne by (by intros ->).
  pose proof (backtracking_largest vertices edges Hne) as [Hle Hiff].
  pose proof (backtracking_largest_values vertices edges) as Hval.
  rewrite hamilton_backtracking_state. simpl in *.
  case_bool_decide as Hc.
  - apply Hiff in Hc. lia.
  - rewrite Hlen in *. destruct Hval as [?|[?|Heq]]; [done|lia|].
    by apply Hiff in Heq.
Qed.

Lemma valid_inputb_spec vertices edges :
  valid_inputb vertices edges = true → valid_input vertices edges.
Proof.
  unfold valid_inputb.
  intros [[Hne%bool_decide_eq_true Hnd%bool_decide_eq_true]%andb_true_iff
            Hall]%andb_true_iff.
  split; [done|]. split; [done|]. intros u v Hin%list_elem_of_In.
  rewrite forallb_forall in Hall. apply Hall in Hin. simpl in Hin.
  apply andb_true_iff in Hin as [[?%bool_decide_eq_true ?%bool_decide_eq_true]%andb_true_iff
                                   ?%bool_decide_eq_true].
  done.
Qed.

(** ** What the brute-force search returns, continued *)

Lemma bruteforce_path_returned vertices edges (p : list Z) :
  path (hamilton_bruteforce vertices edges) = Some p →
  hamiltonian_path_of vertices edges p.
Proof.
  destruct (decide (vertices = [])) as [->|Hne]; [done|].
  destruct (hamilton_bruteforce_fields vertices edges Hne) as (Hp & _).
  rewrite Hp. intros [Hin Hv]%find_Some_elem_of. split.
  - by apply elem_of_generate_permutations.
  - by apply is_valid_path_spec.
Qed.

Lemma closes_cycle_spec vertices edges (p : list Z) :
  p ≡ₚ vertices →
  closes_cycle (build_edge_set edges) p = true
  ↔ 3 ≤ length vertices ∧ closing_hamiltonian_path vertices edges p.
Proof.
  intros Hperm. unfold closes_cycle, closing_hamiltonian_path, hamiltonian_path_of.
  rewrite !andb_true_iff, is_valid_path_spec, has_edge_adjacent, Nat.leb_le.
  rewrite (Permutation_length Hperm). tauto.
Qed.

Lemma bruteforce_cycle_returned vertices edges (c : list Z) :
  cycle (hamilton_bruteforce vertices edges) = Some c →
  ∃ p, c = p ++ [first p] ∧ closing_hamiltonian_path vertices edges p.
Proof.
  destruct (decide (vertices = [])) as [->|Hne]; [done|].
  destruct (hamilton_bruteforce_fields vertices edges Hne) as (_ & _ & Hc & _).
  rewrite Hc. destruct (find _ _) as [p|] eqn:E; [|done]. intros [= <-].
  exists p. split; [done|]. apply find_Some_elem_of in E as [Hin Hcl].
  apply elem_of_generate_permutations in Hin.
  by apply (closes_cycle_spec vertices edges p Hin) in Hcl as [_ ?].
Qed.

Lemma bruteforce_cycle_hamiltonian vertices edges :
  cycle_exists (hamilton_bruteforce vertices edges) = true
  ↔ 3 ≤ length vertices ∧ ∃ p, closing_hamiltonian_path vertices edges p.
Proof.
  destruct (decide (vertices = [])) as [->|Hne].
  { split; [done|]. simpl. lia. }
  destruct (hamilton_bruteforce_fields vertices edges Hne)
    as (_ & _ & Hc & Hce & _).
  rewrite Hce, Hc, bool_decide_eq_true.
  destruct (find _ _) as [p|] eqn:E; simpl.
  - apply find_Some_elem_of in E as [Hin Hcl].
    apply elem_of_generate_permutations in Hin.
    apply (closes_cycle_spec vertices edges p Hin) in Hcl as [? ?].
    split; [|by eauto]. intros _. split; [done|]. by exists p.
  - split; [by intros [? ?]|]. intros (Hlen & p & Hp). exfalso.
    pose proof Hp as [[Hperm _] _].
    apply (find_None_elem_of _ _ p) in E;
      [|by apply elem_of_generate_permutations].
    assert (closes_cycle (build_edge_set edges) p = true)
      by (by apply (closes_cycle_spec vertices edges p Hperm)).
    congruence.
Qed.

(** ** The graph, not the way it is listed, decides the flags and the size *)

Section same_graph.
Variables vertices vertices' : list Z.
Variables edges edges' : list (Z * Z).
Hypothesis same_vertices : vertices ≡ₚ vertices'.
Hypothesis same_edges : ∀ u v, adjacent edges u v ↔ adjacent edges' u v.

Lemma consecutive_adjacent_same (p : list Z) :
  consecutive_adjacent edges p ↔ consecutive_adjacent edges' p.
Proof.
  unfold consecutive_adjacent. split; intros H i u v Hu Hv;
    apply same_edges; by eapply H.
Qed.

Lemma hamiltonian_path_of_same (p : list Z) :
  hamiltonian_path_of vertices edges p ↔ hamiltonian_path_of vertices' edges' p.
Proof.
  unfold hamiltonian_path_of.
  by rewrite consecutive_adjacent_same, same_vertices.
Qed.

Lemma closing_hamiltonian_path_same (p : list Z) :
  closing_hamiltonian_path vertices edges p
  ↔ closing_hamiltonian_path vertices' edges' p.
Proof.
  unfold closing_hamiltonian_path.
  by rewrite hamiltonian_path_of_same, same_edges.
Qed.

Lemma simple_cycle_same (c : list Z) :
  simple_cycle vertices edges c ↔ simple_cycle vertices' edges' c.
Proof.
  unfold simple_cycle, valid_path.
  rewrite consecutive_adjacent_same, same_edges.
  assert (c ⊆ vertices ↔ c ⊆ vertices') as ->; [|done].
  split; intros H x Hx; apply H in Hx; by rewrite ?same_vertices in *.
Qed.

Lemma largest_simple_cycle_same (k : nat) :
  largest_simple_cycle vertices edges k → largest_simple_cycle vertices' edges' k.
Proof.
  intros [Hall Hone]. split.
  - intros c Hc%simple_cycle_same. by apply Hall.
  - destruct Hone as [->|(c & Hc%simple_cycle_same & <-)]; [by left|].
    right. by exists c.
Qed.
End same_graph.

(** * Further results on the functions of the module *)

(** X1. [generate_permutations] (lines 156-171) returns [n!] lists for an
    input of [n] elements, the input itself first; the lists returned are
    exactly the arrangements of the input. *)
Theorem generate_permutations_enumerates (arr : list Z) :
  length (generate_permutations arr) = fact (length arr) ∧
  head (generate_permutations arr) = Some arr ∧
  ∀ p, p ∈ generate_permutations arr ↔ p ≡ₚ arr.
Proof.
  split; [by apply length_backtrack|]. split; [apply generate_permutations_head|].
  apply elem_of_generate_permutations.
Qed.

(** X2. On an input without repeated elements [generate_permutations]
    returns no list twice: every arrangement is tried once. *)
Theorem generate_permutations_distinct (arr : list Z) :
  NoDup arr → NoDup (generate_permutations arr).
Proof. intros Hnd. by apply NoDup_backtrack. Qed.

Lemma generate_permutations_distinct_witness :
  NoDup [1;2;3]%Z ∧ NoDup (generate_permutations [1;2;3]%Z).
Proof.
  assert (NoDup [1;2;3]%Z) as Hnd
    by (apply (bool_decide_unpack (NoDup [1;2;3]%Z)); vm_compute; exact I).
  split; [exact Hnd|]. exact (generate_permutations_distinct _ Hnd).
Defined.

(** X3. [generate_subsets] (lines 173-187) returns exactly the selections
    of at least three elements of its input, each listed in the order of
    the input. *)
Theorem generate_subsets_enumerates (arr s : list Z) :
  s ∈ generate_subsets arr ↔ 3 ≤ length s ∧ s `sublist_of` arr.
Proof. apply elem_of_generate_subsets. Qed.

(** X4. On an input without repeated elements [generate_subsets] returns
    no selection twice, and it returns nothing for fewer than three
    elements. *)
Theorem generate_subsets_distinct (arr : list Z) :
  NoDup arr →
  NoDup (generate_subsets arr) ∧ (length arr < 3 → generate_subsets arr = []).
Proof.
  intros Hnd. split; [apply NoDup_backtrack_subset; [lia|done]|].
  intros Hlen. destruct (generate_subsets arr) as [|s ss] eqn:E; [done|].
  assert (s ∈ generate_subsets arr) as [Hs Hsub%sublist_length]%elem_of_generate_subsets
    by (rewrite E; left).
  lia.
Qed.

Lemma generate_subsets_distinct_witness :
  NoDup [1;2;3;4]%Z ∧ NoDup (generate_subsets [1;2;3;4]%Z).
Proof.
  assert (NoDup [1;2;3;4]%Z) as Hnd
    by (apply (bool_decide_unpack (NoDup [1;2;3;4]%Z)); vm_compute; exact I).
  split; [exact Hnd|]. exact (proj1 (generate_subsets_distinct _ Hnd)).
Defined.

(** X5. The adjacency test of the backtracking search, [check_for_cycle]
    (lines 115-124), and that of the brute-force search, [has_edge] on the
    set built at lines 141-144, give the same answer on every pair; the
    answer does not depend on the order of the pair, and is true exactly
    when the edge list holds the pair in one of its two orientations. *)
Theorem adjacency_tests_agree edges (u v : Z) :
  check_for_cycle edges u v = has_edge (build_edge_set edges) u v ∧
  check_for_cycle edges u v = check_for_cycle edges v u ∧
  has_edge (build_edge_set edges) u v = has_edge (build_edge_set edges) v u ∧
  (check_for_cycle edges u v = true ↔ (u, v) ∈ edges ∨ (v, u) ∈ edges).
Proof.
  split; [apply check_for_cycle_has_edge|]. split; [|split].
  - apply bool_eq_iff. rewrite !check_for_cycle_adjacent. apply adjacent_sym.
  - apply bool_eq_iff. rewrite !has_edge_adjacent. apply adjacent_sym.
  - apply check_for_cycle_adjacent.
Qed.

(** X6. [is_valid_path] (lines 149-154), on the set built from the edge
    list, accepts a sequence exactly when every two consecutive elements
    are joined by an edge of the list in either orientation; it accepts a
    sequence exactly when it accepts the sequence reversed. *)
Theorem is_valid_path_undirected edges (p : list Z) :
  (is_valid_path (build_edge_set edges) p = true
   ↔ ∀ i u v, p !! i = Some u → p !! S i = Some v →
              (u, v) ∈ edges ∨ (v, u) ∈ edges) ∧
  is_valid_path (build_edge_set edges) (reverse p)
  = is_valid_path (build_edge_set edges) p.
Proof.
  split; [apply is_valid_path_spec|].
  apply bool_eq_iff. rewrite !is_valid_path_spec.
  apply consecutive_adjacent_reverse.
Qed.

(** X7. [recurse] (lines 85-113), entered with a visited sequence no
    longer than the vertex count, never nests deeper than the number of
    vertices missing from that sequence: a larger bound on the depth gives
    the same state. *)
Theorem recurse_depth Num_Vertices edges fuel st visited cur_node :
  length visited ≤ Num_Vertices →
  Num_Vertices - length visited ≤ fuel →
  recurse Num_Vertices edges fuel st visited cur_node
  = recurse Num_Vertices edges (Num_Vertices - length visited) st visited cur_node.
Proof. intros Hlen Hfuel. by apply recurse_fuel. Qed.

Lemma recurse_depth_witness :
  length [1%Z] ≤ 3 ∧ 3 - length [1%Z] ≤ 10 ∧
  recurse 3 [(1,2);(2,3)]%Z 10 (mkState [] [] 0) [1%Z] 1%Z
  = recurse 3 [(1,2);(2,3)]%Z (3 - length [1%Z]) (mkState [] [] 0) [1%Z] 1%Z.
Proof.
  assert (length [1%Z] ≤ 3) as H1 by (simpl; lia).
  assert (3 - length [1%Z] ≤ 10) as H2 by (simpl; lia).
  split; [exact H1|]. split; [exact H2|].
  exact (recurse_depth 3 [(1,2);(2,3)]%Z 10 (mkState [] [] 0) [1%Z] 1%Z H1 H2).
Defined.

(** X8. The recursions of [generate_permutations] (lines 160-168) and
    [generate_subsets] (lines 177-184) never nest deeper than the length of
    the input: a larger bound on the depth gives the same lists. *)
Theorem enumeration_depth (arr : list Z) (fuel : nat) :
  length arr ≤ fuel →
  backtrack fuel [] arr = generate_permutations arr ∧
  backtrack_subset arr fuel 0 [] = generate_subsets arr.
Proof.
  intros Hfuel. split.
  - by apply backtrack_fuel.
  - apply backtrack_subset_fuel; lia.
Qed.

Lemma enumeration_depth_witness :
  length [1;2;3]%Z ≤ 7 ∧
  backtrack 7 [] [1;2;3]%Z = generate_permutations [1;2;3]%Z ∧
  backtrack_subset [1;2;3]%Z 7 0 [] = generate_subsets [1;2;3]%Z.
Proof.
  assert (length [1;2;3]%Z ≤ 7) as H by (simpl; lia).
  split; [exact H|]. exact (enumeration_depth [1;2;3]%Z 7 H).
Defined.

(** X9. On every valid input each search reports a path exactly when the
    graph has a Hamiltonian path, and the path it then returns is one: an
    arrangement of all the vertices with consecutive vertices adjacent. *)
Theorem path_found_hamiltonian solve vertices edges :
  solve ∈ algorithms → valid_input vertices edges →
  (path_exists (solve vertices edges) = true
   ↔ ∃ p, hamiltonian_path_of vertices edges p) ∧
  (path_exists (solve vertices edges) = true →
   ∃ p, path (solve vertices edges) = Some p ∧
        hamiltonian_path_of vertices edges p).
Proof.
  intros Hsolve Hvalid. pose proof Hvalid as (Hne & Hnd & _). pattern solve.
  apply (algorithms_cases _ solve Hsolve); clear solve Hsolve.
  - split; [|by apply backtracking_path_hamiltonian]. split.
    + intros (p & _ & Hp)%backtracking_path_hamiltonian; [|done]. by exists p.
    + intros [p Hp]. by eapply backtracking_finds_path.
  - split; [by apply bruteforce_path_hamiltonian|].
    intros Hpe. destruct (hamilton_bruteforce_fields vertices edges Hne)
      as (_ & Hpe' & _).
    rewrite Hpe', bool_decide_eq_true in Hpe. destruct Hpe as [p Hp].
    exists p. split; [done|]. by apply bruteforce_path_returned.
Qed.

Lemma path_found_hamiltonian_witness :
  hamilton_backtracking ∈ algorithms ∧
  valid_input [1;2;3]%Z [(1,2);(2,3)]%Z ∧
  (path_exists (hamilton_backtracking [1;2;3]%Z [(1,2);(2,3)]%Z) = true
   ↔ ∃ p, hamiltonian_path_of [1;2;3]%Z [(1,2);(2,3)]%Z p).
Proof.
  assert (hamilton_backtracking ∈ algorithms) as Hin by left.
  assert (valid_input [1;2;3]%Z [(1,2);(2,3)]%Z) as Hvalid
    by (apply valid_inputb_spec; vm_compute; reflexivity).
  split; [exact Hin|]. split; [exact Hvalid|].
  exact (proj1 (path_found_hamiltonian _ _ _ Hin Hvalid)).
Defined.

(** X10. On every valid input [hamilton_backtracking] reports a cycle
    exactly when some Hamiltonian path has its last vertex adjacent to its
    first; [hamilton_bruteforce] reports one exactly when, in addition,
    there are at least three vertices. *)
Theorem cycle_found_closing_path vertices edges :
  valid_input vertices edges →
  (cycle_exists (hamilton_backtracking vertices edges) = true
   ↔ ∃ p, closing_hamiltonian_path vertices edges p) ∧
  (cycle_exists (hamilton_bruteforce vertices edges) = true
   ↔ 3 ≤ length vertices ∧ ∃ p, closing_hamiltonian_path vertices edges p).
Proof.
  intros Hvalid. pose proof Hvalid as (Hne & Hnd & _).
  split; [|apply bruteforce_cycle_hamiltonian]. split.
  - intros (p & _ & _ & Hp)%backtracking_cycle_hamiltonian; [|done]. by exists p.
  - intros [p Hp]. by eapply backtracking_finds_closing_path.
Qed.

Lemma cycle_found_closing_path_witness :
  valid_input [1;2;3]%Z [(1,2);(2,3);(3,1)]%Z ∧
  (cycle_exists (hamilton_bruteforce [1;2;3]%Z [(1,2);(2,3);(3,1)]%Z) = true
   ↔ 3 ≤ length [1;2;3]%Z ∧
     ∃ p, closing_hamiltonian_path [1;2;3]%Z [(1,2);(2,3);(3,1)]%Z p).
Proof.
  assert (valid_input [1;2;3]%Z [(1,2);(2,3);(3,1)]%Z) as Hvalid
    by (apply valid_inputb_spec; vm_compute; reflexivity).
  split; [exact Hvalid|].
  exact (proj2 (cycle_found_closing_path _ _ Hvalid)).
Defined.

(** X11. On every valid input, when a search reports a cycle, the cycle
    returned is a Hamiltonian path whose last vertex is adjacent to its
    first, followed by a repeat of its first vertex: it visits every vertex
    once before closing. *)
Theorem returned_cycle_hamiltonian solve vertices edges :
  solve ∈ algorithms → valid_input vertices edges →
  cycle_exists (solve vertices edges) = true →
  ∃ p, cycle (solve vertices edges) = Some (p ++ [first p]) ∧
       closing_hamiltonian_path vertices edges p.
Proof.
  intros Hsolve Hvalid. pose proof Hvalid as (Hne & _). pattern solve.
  apply (algorithms_cases _ solve Hsolve); clear solve Hsolve.
  - intros (p & _ & Hc & Hp)%backtracking_cycle_hamiltonian; [|done]. by exists p.
  - intros Hce. destruct (hamilton_bruteforce_fields vertices edges Hne)
      as (_ & _ & _ & Hce' & _).
    rewrite Hce', bool_decide_eq_true in Hce. destruct Hce as [c Hc].
    destruct (bruteforce_cycle_returned _ _ _ Hc) as (p & -> & Hp). by exists p.
Qed.

Lemma returned_cycle_hamiltonian_witness :
  hamilton_bruteforce ∈ algorithms ∧
  valid_input [1;2;3]%Z [(1,2);(2,3);(3,1)]%Z ∧
  cycle_exists (hamilton_bruteforce [1;2;3]%Z [(1,2);(2,3);(3,1)]%Z) = true ∧
  ∃ p, cycle (hamilton_bruteforce [1;2;3]%Z [(1,2);(2,3);(3,1)]%Z)
       = Some (p ++ [first p]) ∧
       closing_hamiltonian_path [1;2;3]%Z [(1,2);(2,3);(3,1)]%Z p.
Proof.
  assert (hamilton_bruteforce ∈ algorithms) as Hin by (right; left).
  assert (valid_input [1;2;3]%Z [(1,2);(2,3);(3,1)]%Z) as Hvalid
    by (apply valid_inputb_spec; vm_compute; reflexivity).
  assert (cycle_exists (hamilton_bruteforce [1;2;3]%Z [(1,2);(2,3);(3,1)]%Z) = true)
    as Hce by (vm_compute; reflexivity).
  split; [exact Hin|]. split; [exact Hvalid|]. split; [exact Hce|].
  exact (returned_cycle_hamiltonian _ _ _ Hin Hvalid Hce).
Defined.

(** X12. In [hamilton_backtracking], on every input, a reported cycle is
    the returned path followed by a repeat of the path's first vertex: the
    search stops at the cycle, so the path recorded with it (lines 94-96)
    is the one returned. *)
Theorem backtracking_cycle_is_path_closed vertices edges :
  cycle_exists (hamilton_backtracking vertices edges) = true →
  ∃ p, path (hamilton_backtracking vertices edges) = Some p ∧
       cycle (hamilton_backtracking vertices edges) = Some (p ++ [first p]).
Proof.
  unfold hamilton_backtracking. simpl. intros Hc%bool_decide_eq_true.
  eexists. split; [done|]. f_equal. by apply starts_cycle_path.
Qed.

Lemma backtracking_cycle_is_path_closed_witness :
  cycle_exists (hamilton_backtracking [1;2;3]%Z [(1,2);(2,3);(3,1)]%Z) = true ∧
  ∃ p, path (hamilton_backtracking [1;2;3]%Z [(1,2);(2,3);(3,1)]%Z) = Some p ∧
       cycle (hamilton_backtracking [1;2;3]%Z [(1,2);(2,3);(3,1)]%Z)
       = Some (p ++ [first p]).
Proof.
  assert (cycle_exists (hamilton_backtracking [1;2;3]%Z [(1,2);(2,3);(3,1)]%Z) = true)
    as Hce by (vm_compute; reflexivity).
  split; [exact Hce|]. exact (backtracking_cycle_is_path_closed _ _ Hce).
Defined.

(** X13. For every vertex set and every edge list (self-loops and foreign
    endpoints included) [hamilton_bruteforce] returns as largest cycle size
    the vertex count of the largest simple cycle among the vertices, and 0
    when there is none. *)
Theorem bruteforce_largest_cycle vertices edges :
  NoDup vertices →
  (∀ c, simple_cycle vertices edges c →
        length c ≤ largest (hamilton_bruteforce vertices edges)) ∧
  (largest (hamilton_bruteforce vertices edges) = 0 ∨
   ∃ c, simple_cycle vertices edges c ∧
        length c = largest (hamilton_bruteforce vertices edges)).
Proof. intros Hnd. by apply bruteforce_largest_simple_cycle. Qed.

Lemma bruteforce_largest_cycle_witness :
  NoDup [1;2;3;4]%Z ∧
  (largest (hamilton_bruteforce [1;2;3;4]%Z [(1,2);(2,3);(3,1);(3,4)]%Z) = 0 ∨
   ∃ c, simple_cycle [1;2;3;4]%Z [(1,2);(2,3);(3,1);(3,4)]%Z c ∧
        length c
        = largest (hamilton_bruteforce [1;2;3;4]%Z [(1,2);(2,3);(3,1);(3,4)]%Z)).
Proof.
  assert (NoDup [1;2;3;4]%Z) as Hnd
    by (apply (bool_decide_unpack (NoDup [1;2;3;4]%Z)); vm_compute; exact I).
  split; [exact Hnd|].
  exact (proj2 (bruteforce_largest_cycle _ [(1,2);(2,3);(3,1);(3,4)]%Z Hnd)).
Defined.

(** X14. On every valid input whose vertex count is not 2,
    [hamilton_backtracking] returns as largest cycle size the vertex count
    of the largest simple cycle of the graph, and 0 when there is none. *)
Theorem backtracking_largest_cycle vertices edges :
  valid_input vertices edges → length vertices ≠ 2 →
  (∀ c, simple_cycle vertices edges c →
        length c ≤ largest (hamilton_backtracking vertices edges)) ∧
  (largest (hamilton_backtracking vertices edges) = 0 ∨
   ∃ c, simple_cycle vertices edges c ∧
        length c = largest (hamilton_backtracking vertices edges)).
Proof. intros Hvalid Hn2. by apply backtracking_largest_simple_cycle. Qed.

Lemma backtracking_largest_cycle_witness :
  valid_input [1;2;3;4]%Z [(1,2);(2,3);(3,1);(3,4)]%Z ∧
  length [1;2;3;4]%Z ≠ 2 ∧
  (largest (hamilton_backtracking [1;2;3;4]%Z [(1,2);(2,3);(3,1);(3,4)]%Z) = 0 ∨
   ∃ c, simple_cycle [1;2;3;4]%Z [(1,2);(2,3);(3,1);(3,4)]%Z c ∧
        length c
        = largest (hamilton_backtracking [1;2;3;4]%Z [(1,2);(2,3);(3,1);(3,4)]%Z)).
Proof.
  assert (valid_input [1;2;3;4]%Z [(1,2);(2,3);(3,1);(3,4)]%Z) as Hvalid
    by (apply valid_inputb_spec; vm_compute; reflexivity).
  assert (length [1;2;3;4]%Z ≠ 2) as Hn2 by (simpl; lia).
  split; [exact Hvalid|]. split; [exact Hn2|].
  exact (proj2 (backtracking_largest_cycle _ _ Hvalid Hn2)).
Defined.

(** X15. On every valid input whose vertex count is not 2, whatever that
    count, the two searches return the same path flag, the same cycle flag
    and the same largest cycle size. *)
Theorem searches_agree_beyond_two vertices edges :
  valid_input vertices edges → length vertices ≠ 2 →
  path_exists (hamilton_backtracking vertices edges)
  = path_exists (hamilton_bruteforce vertices edges) ∧
  cycle_exists (hamilton_backtracking vertices edges)
  = cycle_exists (hamilton_bruteforce vertices edges) ∧
  largest (hamilton_backtracking vertices edges)
  = largest (hamilton_bruteforce vertices edges).
Proof. intros Hvalid Hn2. by apply searches_agree. Qed.

Lemma searches_agree_beyond_two_witness :
  valid_input [1;2;3;4]%Z [(1,2);(2,3);(3,1);(3,4)]%Z ∧
  length [1;2;3;4]%Z ≠ 2 ∧
  largest (hamilton_backtracking [1;2;3;4]%Z [(1,2);(2,3);(3,1);(3,4)]%Z)
  = largest (hamilton_bruteforce [1;2;3;4]%Z [(1,2);(2,3);(3,1);(3,4)]%Z).
Proof.
  assert (valid_input [1;2;3;4]%Z [(1,2);(2,3);(3,1);(3,4)]%Z) as Hvalid
    by (apply valid_inputb_spec; vm_compute; reflexivity).
  assert (length [1;2;3;4]%Z ≠ 2) as Hn2 by (simpl; lia).
  split; [exact Hvalid|]. split; [exact Hn2|].
  exact (proj2 (proj2 (searches_agree_beyond_two _ _ Hvalid Hn2))).
Defined.

(** X16. The flags and the largest cycle size returned by each search
    depend on the graph only: two valid inputs with the same vertices, in
    any iteration order, and the same adjacency, whatever the order,
    orientation or repetition of the edges, give the same three values
    (the path and cycle returned may differ). *)
Theorem result_independent_of_listing solve vertices vertices' edges edges' :
  solve ∈ algorithms →
  valid_input vertices edges → valid_input vertices' edges' →
  vertices ≡ₚ vertices' →
  (∀ u v, adjacent edges u v ↔ adjacent edges' u v) →
  path_exists (solve vertices edges) = path_exists (solve vertices' edges') ∧
  cycle_exists (solve vertices edges) = cycle_exists (solve vertices' edges') ∧
  largest (solve vertices edges) = largest (solve vertices' edges').
Proof.
  intros Hsolve Hvalid Hvalid' Hperm Hadj.
  pose proof Hvalid as (Hne & Hnd & _). pose proof Hvalid' as (Hne' & Hnd' & _).
  assert ((∃ p, hamiltonian_path_of vertices edges p)
          ↔ ∃ p, hamiltonian_path_of vertices' edges' p) as Hpath.
  { split; intros [p Hp]; exists p;
      by apply (hamiltonian_path_of_same vertices vertices' edges edges'). }
  assert ((∃ p, closing_hamiltonian_path vertices edges p)
          ↔ ∃ p, closing_hamiltonian_path vertices' edges' p) as Hcycle.
  { split; intros [p Hp]; exists p;
      by apply (closing_hamiltonian_path_same vertices vertices' edges edges'). }
  pattern solve. apply (algorithms_cases _ solve Hsolve); clear solve Hsolve.
  - assert (cycle_exists (hamilton_backtracking vertices edges)
            = cycle_exists (hamilton_backtracking vertices' edges')) as Hce.
    { apply bool_eq_iff. split.
      - intros (p & _ & _ & Hp)%backtracking_cycle_hamiltonian; [|done].
        destruct (proj1 Hcycle (ex_intro _ p Hp)) as [p' Hp'].
        by eapply backtracking_finds_closing_path.
      - intros (p & _ & _ & Hp)%backtracking_cycle_hamiltonian; [|done].
        destruct (proj2 Hcycle (ex_intro _ p Hp)) as [p' Hp'].
        by eapply backtracking_finds_closing_path. }
    split; [|split; [done|]].
    + apply bool_eq_iff. split.
      * intros (p & _ & Hp)%backtracking_path_hamiltonian; [|done].
        destruct (proj1 Hpath (ex_intro _ p Hp)) as [p' Hp'].
        by eapply backtracking_finds_path.
      * intros (p & _ & Hp)%backtracking_path_hamiltonian; [|done].
        destruct (proj2 Hpath (ex_intro _ p Hp)) as [p' Hp'].
        by eapply backtracking_finds_path.
    + destruct (decide (length vertices = 2)) as [Heq|Hn2].
      * rewrite !backtracking_largest_two, Hce; try done. by rewrite <- Hperm.
      * apply (largest_simple_cycle_unique vertices' edges').
        -- apply (largest_simple_cycle_same vertices vertices' edges edges');
             try done. by apply backtracking_largest_simple_cycle.
        -- apply backtracking_largest_simple_cycle; [done|]. by rewrite <- Hperm.
  - assert (largest (hamilton_bruteforce vertices edges)
            = largest (hamilton_bruteforce vertices' edges')) as Hl.
    { apply (largest_simple_cycle_unique vertices' edges').
      - apply (largest_simple_cycle_same vertices vertices' edges edges');
          try done. by apply bruteforce_largest_simple_cycle.
      - by apply bruteforce_largest_simple_cycle. }
    split; [|split; [|done]].
    + apply bool_eq_iff. by rewrite !bruteforce_path_hamiltonian.
    + apply bool_eq_iff. rewrite !bruteforce_cycle_hamiltonian.
      by rewrite Hcycle, (Permutation_length Hperm).
Qed.

Lemma result_independent_of_listing_witness :
  hamilton_backtracking ∈ algorithms ∧
  valid_input [1;2;3]%Z [(1,2);(2,3)]%Z ∧
  valid_input [3;1;2]%Z [(3,2);(2,1);(1,2)]%Z ∧
  [1;2;3]%Z ≡ₚ [3;1;2]%Z ∧
  (∀ u v, adjacent [(1,2);(2,3)]%Z u v ↔ adjacent [(3,2);(2,1);(1,2)]%Z u v) ∧
  path_exists (hamilton_backtracking [1;2;3]%Z [(1,2);(2,3)]%Z)
  = path_exists (hamilton_backtracking [3;1;2]%Z [(3,2);(2,1);(1,2)]%Z).
Proof.
  assert (hamilton_backtracking ∈ algorithms) as Hin by left.
  assert (valid_input [1;2;3]%Z [(1,2);(2,3)]%Z) as Hv
    by (apply valid_inputb_spec; vm_compute; reflexivity).
  assert (valid_input [3;1;2]%Z [(3,2);(2,1);(1,2)]%Z) as Hv'
    by (apply valid_inputb_spec; vm_compute; reflexivity).
  assert ([1;2;3]%Z ≡ₚ [3;1;2]%Z) as Hperm
    by (apply elem_of_generate_permutations, (bool_decide_unpack _);
        vm_compute; exact I).
  assert (∀ u v, adjacent [(1,2);(2,3)]%Z u v
                 ↔ adjacent [(3,2);(2,1);(1,2)]%Z u v) as Hadj
    by (intros u v; unfold adjacent; rewrite !elem_of_cons, !elem_of_nil;
        intuition congruence).
  split; [exact Hin|]. split; [exact Hv|]. split; [exact Hv'|].
  split; [exact Hperm|]. split; [exact Hadj|].
  exact (proj1 (result_independent_of_listing _ _ _ _ _ Hin Hv Hv' Hperm Hadj)).
Defined.

(** X17. On fewer than three vertices, whatever the edges,
    [hamilton_bruteforce] reports no cycle and a largest cycle size of 0:
    the first loop asks for three vertices (line 202) and there is no
    subset for the second (lines 210-217). *)
Theorem bruteforce_no_cycle_below_three vertices edges :
  length vertices < 3 →
  cycle_exists (hamilton_bruteforce vertices edges) = false ∧
  cycle (hamilton_bruteforce vertices edges) = None ∧
  largest (hamilton_bruteforce vertices edges) = 0.
Proof. apply bruteforce_below_three. Qed.

Lemma bruteforce_no_cycle_below_three_witness :
  length [1;2]%Z < 3 ∧
  cycle_exists (hamilton_bruteforce [1;2]%Z [(1,2);(2,2)]%Z) = false ∧
  cycle (hamilton_bruteforce [1;2]%Z [(1,2);(2,2)]%Z) = None ∧
  largest (hamilton_bruteforce [1;2]%Z [(1,2);(2,2)]%Z) = 0.
Proof.
  assert (length [1;2]%Z < 3) as H by (simpl; lia).
  split; [exact H|]. exact (bruteforce_no_cycle_below_three _ _ H).
Defined.

(** X18. On a single vertex [v], with any edge list, both searches return
    the path [[v]]; [hamilton_bruteforce] returns no cycle, and
    [hamilton_backtracking] returns the cycle [[v; v]] of size 1 exactly
    when the edge list holds the self-loop [(v, v)]. *)
Theorem single_vertex (v : Z) edges :
  hamilton_bruteforce [v] edges = mkResult true (Some [v]) false None 0 ∧
  hamilton_backtracking [v] edges
  = (if bool_decide ((v, v) ∈ edges)
     then mkResult true (Some [v]) true (Some [v; v]) 1
     else mkResult true (Some [v]) false (Some []) 0).
Proof.
  split; [done|].
  unfold hamilton_backtracking. simpl. unfold complete, note_cycle. simpl.
  change (first [v]) with v.
  destruct (check_for_cycle edges v v) eqn:Hc; simpl.
  - apply check_for_cycle_adjacent in Hc.
    by rewrite (bool_decide_true ((v, v) ∈ edges)) by (by destruct Hc).
  - rewrite (bool_decide_false ((v, v) ∈ edges)); [done|]. intros Hin.
    assert (check_for_cycle edges v v = true)
      by (apply check_for_cycle_adjacent; by left).
    congruence.
Qed.
